(** * sort-tabs-advanced: the tab reordering engine of [background.js]

    A shallow embedding of the comparison functions, of the key-to-comparator
    table, of [sortTabsInternal] / [sortTabs] and of the two entry points
    [sortTabsComparatorName] and [settingsSortAutoHandler], followed by the
    properties the specification states about them.

    What the script takes from its host is kept apart from the script itself:
    the URL parser and [String.prototype.localeCompare] are fields of the
    class [Host]; [Array.prototype.sort] is modelled as a stable insertion
    sort that lets a throwing comparator escape; [differ.diff], which the
    script calls but does not define, is a parameter of [sortTabsInternal]
    whose contract is stated in [edit_script] / [lcs_script].  The settings
    functions, the load handler and the popup's click handlers act on a
    record of what the host keeps for the extension: the local storage area
    and whether the handler is registered on the two tab events
    ([Browser]).  What [browser.tabs.move] does to the strip, and what the
    next [browser.tabs.query] then answers, is in [TabStrip]. *)

From Stdlib Require Import ZArith Lia Ascii String Sorted.
From stdpp Require Import base list strings gmap.

Local Open Scope Z_scope.

(** ** Completions: a JavaScript call returns or throws *)

Inductive exn :=
  | TypeError (message : string).

Inductive result (A : Type) :=
  | Ok (a : A)
  | Throw (e : exn).
Arguments Ok {A} a.
Arguments Throw {A} e.

Global Instance result_ret : MRet result := λ A a, Ok a.
Global Instance result_bind : MBind result := λ A B f r,
  match r with
  | Ok a => f a
  | Throw e => Throw e
  end.

Global Instance exn_eq_dec : EqDecision exn.
Proof. solve_decision. Defined.

(** ** Tab records, as [browser.tabs.query] returns them

    Ids and indices are integers; [lastAccessed] is a time in milliseconds
    since the epoch, kept as an integer. *)

Module Tab.
Record t := mk {
  id : Z;
  url : string;
  title : string;
  lastAccessed : Z;
  pinned : bool;
  index : Z;
}.
End Tab.

(** ** The host: URL parsing and locale-aware comparison *)

Record URL := { hostname : string }.

Class Host := {
  (** [parse_url s] is [Some u] when [new URL(s)] succeeds and [None] when
      the constructor throws. *)
  parse_url : string → option URL;
  (** [s1.localeCompare(s2)] *)
  localeCompare : string → string → Z;
}.

(** ** String helpers of the domain comparators *)

(** [s.split(".")] for a one-character separator. *)
Fixpoint split (sep : ascii) (s : string) : list string :=
  match s with
  | EmptyString => [EmptyString]
  | String c r =>
      if decide (c = sep) then EmptyString :: split sep r
      else match split sep r with
           | h :: t => String c h :: t
           | [] => [String c EmptyString]
           end
  end.

(** [l.slice(start)]: a negative [start] counts from the end. *)
Definition slice {A} (start : Z) (l : list A) : list A :=
  let len := Z.of_nat (length l) in
  let k := if start <? 0 then Z.max (len + start) 0 else Z.min start len in
  drop (Z.to_nat k) l.

(** [l.join(sep)] *)
Fixpoint join (sep : string) (l : list string) : string :=
  match l with
  | [] => EmptyString
  | [x] => x
  | x :: r => x +:+ sep +:+ join sep r
  end.

(** [hostname.split(".").slice(-2).join(".")] *)
Definition domain_of (h : string) : string :=
  join "." (slice (-2) (split "."%char h)).

(** ** Comparison functions *)

Definition Comparator := Tab.t → Tab.t → result Z.

Section Comparators.
Context `{Host}.

Definition new_URL (s : string) : result URL :=
  match parse_url s with
  | Some u => Ok u
  | None => Throw (TypeError "Invalid URL")
  end.

Definition compareByUrlAsc : Comparator := λ a b,
  url1 ← new_URL (Tab.url a);
  url2 ← new_URL (Tab.url b);
  mret (localeCompare (hostname url1) (hostname url2)).

Definition compareByUrlDesc : Comparator := λ a b,
  url1 ← new_URL (Tab.url a);
  url2 ← new_URL (Tab.url b);
  mret (localeCompare (hostname url2) (hostname url1)).

Definition compareByDomainAsc : Comparator := λ a b,
  url1 ← new_URL (Tab.url a);
  url2 ← new_URL (Tab.url b);
  let domain1 := domain_of (hostname url1) in
  let domain2 := domain_of (hostname url2) in
  mret (localeCompare domain1 domain2).

Definition compareByDomainDesc : Comparator := λ a b,
  url1 ← new_URL (Tab.url a);
  url2 ← new_URL (Tab.url b);
  let domain1 := domain_of (hostname url1) in
  let domain2 := domain_of (hostname url2) in
  mret (localeCompare domain2 domain1).

Definition compareByTitleAsc : Comparator := λ a b,
  mret (localeCompare (Tab.title a) (Tab.title b)).

Definition compareByTitleDesc : Comparator := λ a b,
  mret (localeCompare (Tab.title b) (Tab.title a)).

Definition compareByLastAccessAsc : Comparator := λ a b,
  if Tab.lastAccessed a <? Tab.lastAccessed b then mret (-1)
  else if Tab.lastAccessed a >? Tab.lastAccessed b then mret 1
  else mret 0.

Definition compareByLastAccessDesc : Comparator := λ a b,
  if Tab.lastAccessed b <? Tab.lastAccessed a then mret (-1)
  else if Tab.lastAccessed b >? Tab.lastAccessed a then mret 1
  else mret 0.

(** Mapping of menu ids to comparator functions (own properties of the
    object literal). *)
Definition menuIdToComparator : gmap string Comparator :=
  list_to_map [
    ("sort-by-url-asc", compareByUrlAsc);
    ("sort-by-url-desc", compareByUrlDesc);
    ("sort-by-domain-asc", compareByDomainAsc);
    ("sort-by-domain-desc", compareByDomainDesc);
    ("sort-by-last-access-asc", compareByLastAccessAsc);
    ("sort-by-last-access-desc", compareByLastAccessDesc);
    ("sort-by-title-asc", compareByTitleAsc);
    ("sort-by-title-desc", compareByTitleDesc)
  ].
End Comparators.

(** ** Array helpers, with JavaScript's conventions *)

(** [l.indexOf(x)]; [x] is a value read from an array and may be
    [undefined] ([None]), which no id equals. *)
Fixpoint indexOf (l : list Z) (x : option Z) : Z :=
  match l with
  | [] => -1
  | y :: r =>
      if decide (Some y = x) then 0
      else let i := indexOf r x in if i <? 0 then -1 else i + 1
  end.

(** [l[i]] for a number [i]: [undefined] out of range. *)
Definition at_index {A} (l : list A) (i : Z) : option A :=
  if i <? 0 then None else l !! Z.to_nat i.

(** [l.splice(start, 0, ...items)]: [start] is clamped to the array. *)
Definition splice {A} (l : list A) (start : Z) (items : list A) : list A :=
  let len := Z.of_nat (length l) in
  let k := if start <? 0 then Z.max (len + start) 0 else Z.min start len in
  take (Z.to_nat k) l ++ items ++ drop (Z.to_nat k) l.

(** ** [Array.prototype.sort]

    The host's sort is stable and calls the comparator on pairs of elements;
    a comparator that throws ends the sort with that exception.  It is
    modelled as a stable insertion sort: [x] goes before [y] when
    [comparefn x y <= 0]. *)

Section ArraySort.
Context {A : Type} (comparefn : A → A → result Z).

Fixpoint sort_insert (x : A) (sorted : list A) : result (list A) :=
  match sorted with
  | [] => mret [x]
  | y :: r =>
      v ← comparefn x y;
      if v <=? 0 then mret (x :: y :: r)
      else r' ← sort_insert x r; mret (y :: r')
  end.

Fixpoint sort_with (l : list A) : result (list A) :=
  match l with
  | [] => mret []
  | x :: r => s ← sort_with r; sort_insert x s
  end.

(** Each element compares [<= 0] with its successor. *)
Fixpoint in_order (l : list A) : Prop :=
  match l with
  | x :: (y :: _) as r => (∃ v, comparefn x y = Ok v ∧ v ≤ 0) ∧ in_order r
  | _ => True
  end.
End ArraySort.

(** [String(tab)] of a plain object. *)
Definition toString (_ : Tab.t) : string := "[object Object]".

(** The comparison [sort] uses: the given function, or, when the argument is
    [undefined], the order of the elements' string conversions. *)
Definition SortCompare (comparefn : option Comparator) : Comparator :=
  match comparefn with
  | Some f => f
  | None => λ x y,
      let xString := toString x in
      let yString := toString y in
      if String.ltb xString yString then mret (-1)
      else if String.ltb yString xString then mret 1
      else mret 0
  end.

Definition Array_sort (l : list Tab.t) (comparefn : option Comparator)
  : result (list Tab.t) :=
  sort_with (SortCompare comparefn) l.

(** The local [afterIds] of [sortTabsInternal]. *)
Definition afterIds_of (tabs : list Tab.t) (comparator : option Comparator)
  : result (list Z) :=
  match Array_sort tabs comparator with
  | Ok sorted => Ok (Tab.id <$> sorted)
  | Throw e => Throw e
  end.

(** ** The diff library's interface

    [differ.diff(before, after)] returns a list of change objects
    [{added, removed, value}]; the script only looks at these three
    properties. *)

Record Change := mkChange {
  added : bool;
  removed : bool;
  value : list Z;
}.

Class Differ := diff : list Z → list Z → list Change.

(** ** Moves and the working state of [sortTabsInternal] *)

(** One call [browser.tabs.move(movingIds, {index})]. *)
Record MoveOp := mkMove {
  movingIds : list Z;
  index : Z;
}.

Global Instance MoveOp_eq_dec : EqDecision MoveOp.
Proof. solve_decision. Defined.

(** The local [currentIds] and the moves requested so far. *)
Record loop_state := mkState {
  currentIds : list Z;
  issued : list MoveOp;
}.

Section Engine.
Context `{Differ}.

(** One iteration of the [for (const difference of ...)] loop. *)
Definition loop_body (beforeIds afterIds : list Z) (offset : Z)
    (st : loop_state) (difference : Change) : loop_state :=
  if negb (added difference) then st
  else
    let movingIds := value difference in
    let lastMovingId := last movingIds in
    let nearestFollowingIndex := indexOf afterIds lastMovingId + 1 in
    let newIndex :=
      if nearestFollowingIndex <? Z.of_nat (length afterIds)
      then indexOf (currentIds st) (at_index afterIds nearestFollowingIndex)
      else -1 in
    let newIndex :=
      if newIndex <? 0 then Z.of_nat (length beforeIds) else newIndex in
    let oldIndex := indexOf (currentIds st) (head movingIds) in
    let newIndex := if oldIndex <? newIndex then newIndex - 1 else newIndex in
    {| issued := issued st ++ [mkMove movingIds (newIndex + offset)];
       currentIds :=
         splice (filter (λ id, id ∉ movingIds) (currentIds st))
                newIndex movingIds |}.

(** Internal function for sorting a set of tabs.  The result is the state
    of the locals when the function returns: the moves it requested, in
    order, and the final [currentIds].  The only statement that can throw
    is the sort, which runs before the first move. *)
Definition sortTabsInternal (tabs : list Tab.t)
    (comparator : option Comparator) : result loop_state :=
  match tabs with
  | [] => mret (mkState [] [])
  | tab0 :: _ =>
      let offset := Tab.index tab0 in
      let beforeIds := Tab.id <$> tabs in
      sorted ← Array_sort tabs comparator;
      let afterIds := Tab.id <$> sorted in
      mret (foldl (loop_body beforeIds afterIds offset)
                  (mkState beforeIds [])
                  (diff beforeIds afterIds))
  end.
End Engine.

(** ** Settings, the console and the promise-returning entry points *)

Record Settings := mkSettings {
  last_comparator : option string;
  settings_sort_auto : bool;
  settings_sort_pinned : bool;
}.

(** What a call does to the host, in order. *)
Inductive event :=
  | tabs_query
  | tabs_move (m : MoveOp)
  | console_output (method : string) (message : string).

Global Instance event_eq_dec : EqDecision event.
Proof. solve_decision. Defined.

(** The host calls made and how the returned promise settles. *)
Record run := mkRun {
  trace : list event;
  settled : result unit;
}.

(** The function-valued properties of the host's [console] object. *)
Definition console_methods : list string :=
  [ "assert"; "clear"; "count"; "countReset"; "debug"; "dir"; "dirxml";
    "error"; "exception"; "group"; "groupCollapsed"; "groupEnd"; "info";
    "log"; "profile"; "profileEnd"; "table"; "time"; "timeEnd"; "timeLog";
    "timeStamp"; "trace"; "warn" ].

(** [console[method](message)]: calling a property that is not a function
    throws. *)
Definition console (method message : string) : run :=
  if decide (method ∈ console_methods)
  then mkRun [console_output method message] (Ok ())
  else mkRun [] (Throw (TypeError ("console." +:+ method +:+ " is not a function"))).

Definition exn_message (e : exn) : string :=
  match e with TypeError m => m end.

(** Simple error handling function *)
Definition onError (error : exn) : run :=
  console "trace" (exn_message error).

(** The names of the members that an object literal inherits from
    [Object.prototype]: for these [obj[name]] is not [undefined] even when
    [name] is not one of the literal's own properties. *)
Definition Object_prototype : list string :=
  [ "__defineGetter__"; "__defineSetter__"; "__lookupGetter__";
    "__lookupSetter__"; "__proto__"; "constructor"; "hasOwnProperty";
    "isPrototypeOf"; "propertyIsEnumerable"; "toLocaleString"; "toString";
    "valueOf" ].

Section EntryPoints.
Context `{Host} `{Differ}.

(** Sorts tabs given a comparator function and the current settings;
    [tabs] is what [browser.tabs.query] answers. *)
Definition sortTabs (comparator : option Comparator) (settings : Settings)
    (tabs : list Tab.t) : run :=
  let pinnedTabs := filter (λ tab, Tab.pinned tab = true) tabs in
  let normalTabs := filter (λ tab, Tab.pinned tab ≠ true) tabs in
  let pinnedPass :=
    if settings_sort_pinned settings
    then sortTabsInternal pinnedTabs comparator
    else mret (mkState [] []) in
  match pinnedPass with
  | Throw e => mkRun [tabs_query] (Throw e)
  | Ok st1 =>
      match sortTabsInternal normalTabs comparator with
      | Throw e => mkRun (tabs_query :: (tabs_move <$> issued st1)) (Throw e)
      | Ok st2 =>
          mkRun (tabs_query :: (tabs_move <$> issued st1 ++ issued st2))
                (Ok ())
      end
  end.

(** [menuIdToComparator[key]] as far as the table's own properties decide
    it; an [undefined] key reads the property named "undefined".  A key
    that names a member of [Object_prototype] finds that member in the
    script: such keys are outside this definition, and the lemmas on keys
    without a comparator leave them out. *)
Definition comparator_of (key : option string) : option Comparator :=
  menuIdToComparator !! default "undefined" key.

(** Sort the tabs using the given comparator and current settings state. *)
Definition sortTabsComparatorName (compName : string) (settings : Settings)
    (tabs : list Tab.t) : run :=
  sortTabs (comparator_of (Some compName)) settings tabs.

(** Listener for tabs.onCreated and tabs.onUpdated.  [stored] is how the
    promise of [initializeSettings] settles. *)
Definition settingsSortAutoHandler (stored : result Settings)
    (tabs : list Tab.t) : run :=
  match stored with
  | Throw e => onError e
  | Ok settings =>
      match comparator_of (last_comparator settings) with
      | Some comparator => sortTabs (Some comparator) settings tabs
      | None =>
          console "warning"
            "Tried to automatically sort tabs but couldn't find the last-comparator. Doing nothing instead."
      end
  end.
End EntryPoints.

(** ** The contract of [differ.diff] *)

(** The old sequence is read off the chunks that are not added, the new one
    off the chunks that are not removed, the common subsequence off the
    chunks that are neither. *)
Definition old_side (s : list Change) : list Z :=
  concat (value <$> filter (λ c, added c = false) s).

Definition new_side (s : list Change) : list Z :=
  concat (value <$> filter (λ c, removed c = false) s).

Definition common_side (s : list Change) : list Z :=
  concat (value <$> filter (λ c, added c = false ∧ removed c = false) s).

Definition well_formed_chunk (c : Change) : Prop :=
  value c ≠ [] ∧ (added c = false ∨ removed c = false).

(** [s] is an edit script from [before] to [after]. *)
Record edit_script (before after : list Z) (s : list Change) : Prop := {
  script_old : old_side s = before;
  script_new : new_side s = after;
  script_chunks : Forall well_formed_chunk s;
}.

(** [s] is an edit script that keeps a longest common subsequence. *)
Definition lcs_script (before after : list Z) (s : list Change) : Prop :=
  edit_script before after s ∧
  ∀ c, c `sublist_of` before → c `sublist_of` after →
       (length c ≤ length (common_side s))%nat.


(** The three sides are instances of one reading of a script. *)
Definition side (P : Change → Prop) `{∀ c, Decision (P c)}
    (s : list Change) : list Z :=
  concat (value <$> filter P s).

(** The diff library honours its contract on every pair of sequences. *)
Definition differ_edit_scripts `{Differ} : Prop :=
  ∀ before after, edit_script before after (diff before after).

Definition differ_lcs_scripts `{Differ} : Prop :=
  ∀ before after, lcs_script before after (diff before after).

(** ** The specification's account of one reordering pass (its section 4.2)

    These definitions follow the prose of the specification, with positions
    as natural numbers that exist or not; they are what [sortTabsInternal]
    is compared with. *)

Module Spec.

(** The position of [x] in [l], if it occurs. *)
Definition position_of (x : Z) (l : list Z) : option nat :=
  fst <$> list_find (λ y, y = x) l.

(** Step 4: the inserted runs of the script, left to right. *)
Definition inserted_runs (s : list Change) : list (list Z) :=
  value <$> filter (λ c, added c = true) s.

(** Steps 4b to 4d: the anchor is the element immediately following the
    run's last id in [afterIds]; the destination is the anchor's current
    position, or the length of [beforeIds] when there is no anchor; it is
    decremented when the run's first element currently precedes it. *)
Definition destinationIndex (beforeIds afterIds currentIds movingIds : list Z)
  : option nat :=
  lastId ← last movingIds;
  p ← position_of lastId afterIds;
  d ← match afterIds !! S p with
      | Some anchor => position_of anchor currentIds
      | None => Some (length beforeIds)
      end;
  first ← head movingIds;
  o ← position_of first currentIds;
  Some (if decide (o < d)%nat then pred d else d).

(** Step 4e: remove the run from its old positions and put it in at the
    destination. *)
Definition relocate (currentIds movingIds : list Z) (d : nat) : list Z :=
  let rest := filter (λ id, id ∉ movingIds) currentIds in
  take d rest ++ movingIds ++ drop d rest.

(** The moves of one pass, and the final working copy. *)
Fixpoint pass (beforeIds afterIds : list Z) (offset : Z)
    (currentIds : list Z) (runs : list (list Z))
  : option (list MoveOp * list Z) :=
  match runs with
  | [] => Some ([], currentIds)
  | movingIds :: runs' =>
      d ← destinationIndex beforeIds afterIds currentIds movingIds;
      '(ops, final) ← pass beforeIds afterIds offset
                           (relocate currentIds movingIds d) runs';
      Some (mkMove movingIds (Z.of_nat d + offset) :: ops, final)
  end.

(** Step 1: the index of the partition's first element. *)
Definition offset (tabs : list Tab.t) : Z :=
  from_option Tab.index 0 (head tabs).

(** The strip indices the partition occupies. *)
Definition in_partition_range (tabs : list Tab.t) (i : Z) : Prop :=
  offset tabs ≤ i < offset tabs + Z.of_nat (length tabs).

End Spec.

(** The four comparators that parse the tabs' URLs. *)
Definition url_comparators `{Host} : list Comparator :=
  [compareByUrlAsc; compareByUrlDesc; compareByDomainAsc; compareByDomainDesc].

(** The four comparators that do not. *)
Definition field_comparators `{Host} : list Comparator :=
  [compareByTitleAsc; compareByTitleDesc;
   compareByLastAccessAsc; compareByLastAccessDesc].

(** A string without the separator of [split]. *)
Fixpoint dot_free (s : string) : Prop :=
  match s with
  | EmptyString => True
  | String c r => c ≠ "."%char ∧ dot_free r
  end.

(** All subsequences of a list, and a test for being one. *)
Fixpoint sublists {A} (l : list A) : list (list A) :=
  match l with
  | [] => [[]]
  | x :: r => ((x ::.) <$> sublists r) ++ sublists r
  end.

(** All ways of cutting a list into consecutive non-empty runs. *)
Fixpoint compositions {A} (l : list A) : list (list (list A)) :=
  match l with
  | [] => [[]]
  | x :: r =>
      c ← compositions r;
      match c with
      | [] => [[[x]]]
      | run :: runs => [[x] :: run :: runs; (x :: run) :: runs]
      end
  end.

Fixpoint is_sublist (c l : list Z) : bool :=
  match l with
  | [] => bool_decide (c = [])
  | y :: l' =>
      match c with
      | [] => true
      | x :: c' => if decide (x = y) then is_sublist c' l' else is_sublist c l'
      end
  end.

(** ** A diff to run the engine on examples *)

Module LcsDiff.

(** A longest common subsequence of the two lists. *)
Fixpoint lcs (xs : list Z) : list Z → list Z :=
  match xs with
  | [] => λ _, []
  | x :: xs' =>
      fix lcs_x (ys : list Z) : list Z :=
        match ys with
        | [] => []
        | y :: ys' =>
            if decide (x = y) then x :: lcs xs' ys'
            else
              let skip_x := lcs xs' ys in
              let skip_y := lcs_x ys' in
              if (length skip_y <=? length skip_x)%nat then skip_x else skip_y
        end
  end.

(** The part of [l] before the first [z], and the part after it. *)
Fixpoint break_at (z : Z) (l : list Z) : list Z * list Z :=
  match l with
  | [] => ([], [])
  | x :: r =>
      if decide (x = z) then ([], r)
      else let '(p, s) := break_at z r in (x :: p, s)
  end.

Definition chunk (a r : bool) (ids : list Z) : list Change :=
  match ids with
  | [] => []
  | _ => [mkChange a r ids]
  end.

(** Put a kept id in front of a script, joining it to a kept chunk. *)
Definition keep (z : Z) (s : list Change) : list Change :=
  match s with
  | mkChange false false ids :: s' => mkChange false false (z :: ids) :: s'
  | _ => mkChange false false [z] :: s
  end.

(** The script that keeps [common]: between two kept ids, what [before]
    has there is one removed chunk and what [after] has there is one
    added chunk. *)
Fixpoint script (common before after : list Z) : list Change :=
  match common with
  | [] => chunk false true before ++ chunk true false after
  | z :: common' =>
      let '(b1, b2) := break_at z before in
      let '(a1, a2) := break_at z after in
      chunk false true b1 ++ chunk true false a1 ++
      keep z (script common' b2 a2)
  end.

(** Modelled from the spec: the diff library object [differ] is not part
    of the script.  The spec asks for "an edit script between before and
    after [...] using a longest-common-subsequence-based sequence diff"
    whose inserted runs are "maximal contiguous group[s] of identifiers
    newly placed at a point in after relative to the common
    subsequence". *)
Definition lcs_diff : Differ := λ before after,
  script (lcs before after) before after.

End LcsDiff.

(** ** A host to run the comparators on examples

    URLs of the shape [scheme://host/path] parse, anything without [://]
    does not; strings are compared by code units. *)

Module ExampleHost.

Fixpoint after_scheme (s : string) : option string :=
  match s with
  | EmptyString => None
  | String ":" (String "/" (String "/" r)) => Some r
  | String _ r => after_scheme r
  end.

Fixpoint until_slash (s : string) : string :=
  match s with
  | EmptyString => EmptyString
  | String c r =>
      if decide (c = "/"%char) then EmptyString else String c (until_slash r)
  end.

Definition parse (s : string) : option URL :=
  h ← after_scheme s; Some {| hostname := until_slash h |}.

Definition code_unit_compare (s1 s2 : string) : Z :=
  match String.compare s1 s2 with
  | Lt => -1
  | Eq => 0
  | Gt => 1
  end.

Definition host : Host :=
  {| parse_url := parse; localeCompare := code_unit_compare |}.

End ExampleHost.


(** ** Example data *)

Module Examples.

Definition tab (id : Z) (url title : string) (lastAccessed : Z)
    (pinned : bool) (index : Z) : Tab.t :=
  Tab.mk id url title lastAccessed pinned index.

(** Six unpinned tabs; by last access the ids order as 3, 4, 5, 1, 2, 6. *)
Definition six_tabs : list Tab.t :=
  [ tab 1 "https://d.example.org/" "delta" 40 false 0;
    tab 2 "https://e.example.org/" "echo" 50 false 1;
    tab 3 "https://a.example.org/" "alpha" 10 false 2;
    tab 4 "https://b.example.org/" "bravo" 20 false 3;
    tab 5 "https://c.example.org/" "charlie" 30 false 4;
    tab 6 "https://f.example.org/" "foxtrot" 60 false 5 ].

(** The same tabs sorted by last access. *)
Definition six_tabs_sorted : list Tab.t :=
  [ tab 3 "https://a.example.org/" "alpha" 10 false 2;
    tab 4 "https://b.example.org/" "bravo" 20 false 3;
    tab 5 "https://c.example.org/" "charlie" 30 false 4;
    tab 1 "https://d.example.org/" "delta" 40 false 0;
    tab 2 "https://e.example.org/" "echo" 50 false 1;
    tab 6 "https://f.example.org/" "foxtrot" 60 false 5 ].

(** The same tabs in the order the first pass leaves in [currentIds],
    with the indices of that order. *)
Definition six_tabs_after_pass : list Tab.t :=
  [ tab 3 "https://a.example.org/" "alpha" 10 false 0;
    tab 4 "https://b.example.org/" "bravo" 20 false 1;
    tab 5 "https://c.example.org/" "charlie" 30 false 2;
    tab 6 "https://f.example.org/" "foxtrot" 60 false 3;
    tab 1 "https://d.example.org/" "delta" 40 false 4;
    tab 2 "https://e.example.org/" "echo" 50 false 5 ].

(** Eight unpinned tabs; tab [n] was last accessed at time [10 * n], and
    the ids 1, 2, 6, 8 form the one longest subsequence that is already in
    that order. *)
Definition eight_tabs : list Tab.t :=
  [ tab 5 "https://e.example.org/" "echo" 50 false 0;
    tab 4 "https://d.example.org/" "delta" 40 false 1;
    tab 3 "https://c.example.org/" "charlie" 30 false 2;
    tab 1 "https://a.example.org/" "alpha" 10 false 3;
    tab 7 "https://g.example.org/" "golf" 70 false 4;
    tab 2 "https://b.example.org/" "bravo" 20 false 5;
    tab 6 "https://f.example.org/" "foxtrot" 60 false 6;
    tab 8 "https://h.example.org/" "hotel" 80 false 7 ].

(** Two pinned tabs followed by three normal ones. *)
Definition mixed_tabs : list Tab.t :=
  [ tab 11 "https://p.example.org/" "papa" 5 true 0;
    tab 12 "https://o.example.org/" "oscar" 6 true 1;
    tab 23 "https://z.example.org/" "zulu" 3 false 2;
    tab 22 "https://y.example.org/" "yankee" 2 false 3;
    tab 21 "https://x.example.org/" "xray" 1 false 4 ].

(** A tab whose url the host cannot parse. *)
Definition broken_tab : Tab.t := tab 7 "not a url" "broken" 0 false 0.

(** Two tabs on the hosts of the specification's fifth scenario, and one on
    another host under [com]. *)
Definition uk_tab : Tab.t := tab 31 "https://a.example.co.uk/x" "uk" 1 false 0.
Definition com_tab : Tab.t := tab 32 "https://b.example.com/" "com" 2 false 1.
Definition other_com_tab : Tab.t :=
  tab 33 "https://c.other.com/" "other" 3 false 2.

(** Three tabs with one title; the first has a url that does not parse. *)
Definition same_title_tabs : list Tab.t :=
  [ tab 41 "not a url" "inbox" 3 false 0;
    tab 42 "https://mail.example.org/" "inbox" 1 false 1;
    tab 43 "https://mail.example.org/2" "inbox" 2 false 2 ].

(** What [initializeSettings] yields on a fresh profile. *)
Definition default_settings : Settings := mkSettings None false false.

End Examples.

(** ** The extension's state in the host: stored settings and listeners *)

(** The values the extension keeps in [browser.storage.local]: the checked
    state of a setting and the id of a sort button. *)
Inductive js_value :=
  | VBool (b : bool)
  | VString (s : string).

Global Instance js_value_eq_dec : EqDecision js_value.
Proof. solve_decision. Defined.

(** What [if (v)] tests; [None] is [undefined]. *)
Definition truthy (v : option js_value) : bool :=
  match v with
  | None => false
  | Some (VBool b) => b
  | Some (VString s) => bool_decide (s ≠ "")
  end.

(** A value used as a property name, as in [menuIdToComparator[v]]. *)
Definition property_key (v : js_value) : string :=
  match v with
  | VBool true => "true"
  | VBool false => "false"
  | VString s => s
  end.

(** The local storage area, and whether [settingsSortAutoHandler] is among
    the listeners of [browser.tabs.onUpdated] and [browser.tabs.onCreated]
    (adding a listener that is there, or removing one that is not, changes
    nothing). *)
Record Browser := mkBrowser {
  storage_local : gmap string js_value;
  tabs_onUpdated : bool;
  tabs_onCreated : bool;
}.

(** [browser.storage.local.get(defaults)]: for every key of [defaults], the
    stored value, or else the default when it is not [undefined]. *)
Definition storage_get (defaults : gmap string (option js_value)) (b : Browser)
  : gmap string js_value :=
  map_imap (λ key d, match storage_local b !! key with
                     | Some v => Some v
                     | None => d
                     end) defaults.

(** [browser.storage.local.set({[key]: v})] *)
Definition storage_set (key : string) (v : js_value) (b : Browser) : Browser :=
  {| storage_local := <[key := v]> (storage_local b);
     tabs_onUpdated := tabs_onUpdated b;
     tabs_onCreated := tabs_onCreated b |}.

(** The settings object as the sorting functions read it:
    ["last-comparator"] as a property name, the two flags by their truth. *)
Definition settings_of (obj : gmap string js_value) : Settings :=
  {| last_comparator := property_key <$> obj !! "last-comparator";
     settings_sort_auto := truthy (obj !! "settings-sort-auto");
     settings_sort_pinned := truthy (obj !! "settings-sort-pinned") |}.

(** Adds/removes listener for automatic tab sorting. *)
Definition onSettingsSortAuto (newValue : option js_value) (b : Browser)
  : Browser :=
  if truthy newValue
  then {| storage_local := storage_local b;
          tabs_onUpdated := true; tabs_onCreated := true |}
  else {| storage_local := storage_local b;
          tabs_onUpdated := false; tabs_onCreated := false |}.

(** No-op. *)
Definition onSettingsSortPinned (newValue : option js_value) (b : Browser)
  : Browser := b.

(** Mapping of settings ids to on-change functions (own properties of the
    object literal). *)
Definition settingsMenuIdToHandler
  : gmap string (option js_value → Browser → Browser) :=
  list_to_map [
    ("settings-sort-auto", onSettingsSortAuto);
    ("settings-sort-pinned", onSettingsSortPinned)
  ].

(** The defaults of the background page. *)
Definition defaultDict : gmap string (option js_value) :=
  list_to_map [
    ("last-comparator", None);
    ("settings-sort-auto", Some (VBool false));
    ("settings-sort-pinned", Some (VBool false))
  ].

(** Returns the settings stored in browser persistent storage. *)
Definition initializeSettings (b : Browser) : gmap string js_value :=
  storage_get defaultDict b.

(** What [settingsMenuIdToHandler[settingId](newValue).then(...)] throws
    when [settingId] is not an own property of the table.  A name that is
    not inherited either reads [undefined], and [__proto__] reads the
    prototype object: neither can be called.  [__defineGetter__] and
    [__defineSetter__] are called and throw, for want of a function as
    their second argument.  [__lookupGetter__] and [__lookupSetter__] are
    called and return [undefined], of which [then] cannot be read.  The
    other inherited members are called and return a boolean, a string or an
    object, none of which has a [then] to call. *)
Definition no_handler (settingId : string) : exn :=
  if decide (settingId ∈ ["__defineGetter__"; "__defineSetter__"])
  then TypeError "settingsMenuIdToHandler[settingId](...): accessor is not a function"
  else if decide (settingId ∈ ["__lookupGetter__"; "__lookupSetter__"])
  then TypeError "settingsMenuIdToHandler[settingId](...) is undefined"
  else if decide (settingId ∈ Object_prototype ∧ settingId ≠ "__proto__")
  then TypeError "settingsMenuIdToHandler[settingId](...).then is not a function"
  else TypeError "settingsMenuIdToHandler[settingId] is not a function".

(** Called when a setting has changed: first the handler, then the store.
    With a [settingId] that is not a key of the table the expression throws
    before a listener or the store is touched. *)
Definition settingChanged (settingId : string) (newValue : js_value)
    (b : Browser) : result Browser :=
  match settingsMenuIdToHandler !! settingId with
  | Some handler => Ok (storage_set settingId newValue (handler (Some newValue) b))
  | None => Throw (no_handler settingId)
  end.

(** When the extension is loaded, check if the auto-sort setting is checked
    and immediately add handlers. *)
Definition onDOMContentLoaded (b : Browser) : Browser :=
  onSettingsSortAuto (initializeSettings b !! "settings-sort-auto") b.

Section TabEvents.
Context `{Host} `{Differ}.

(** What the listeners do when a tab is updated or created; [tabs] is what
    the query of the pass answers. *)
Definition tabs_onUpdated_fires (b : Browser) (tabs : list Tab.t) : run :=
  if tabs_onUpdated b
  then settingsSortAutoHandler (Ok (settings_of (initializeSettings b))) tabs
  else mkRun [] (Ok ()).

Definition tabs_onCreated_fires (b : Browser) (tabs : list Tab.t) : run :=
  if tabs_onCreated b
  then settingsSortAutoHandler (Ok (settings_of (initializeSettings b))) tabs
  else mkRun [] (Ok ()).
End TabEvents.

(** ** The popup *)

Module Popup.

(** Sort-type metadata *)
Record SortMetadata := mkSort {
  id : string;
  title : string;
  contexts : list string;
  icons : list (Z * string);
}.

(** Metadata for each available sort type *)
Definition menuDefs : list SortMetadata :=
  [ mkSort "sort-by-url-asc" "sort by url (asc)"
      ["tools_menu"; "browser_action"] [(16, "icons/sort-icon-url-asc-16.png")];
    mkSort "sort-by-url-desc" "sort by url (desc)"
      ["tools_menu"; "browser_action"] [(16, "icons/sort-icon-url-desc-16.png")];
    mkSort "sort-by-domain-asc" "sort by domain (asc)"
      ["tools_menu"; "browser_action"]
      [(16, "icons/sort-icon-domain-asc-16.png")];
    mkSort "sort-by-domain-desc" "sort by domain (desc)"
      ["tools_menu"; "browser_action"]
      [(16, "icons/sort-icon-domain-desc-16.png")];
    mkSort "sort-by-title-asc" "sort by title (asc)"
      ["tools_menu"; "browser_action"]
      [(16, "icons/sort-icon-title-asc-16.png")];
    mkSort "sort-by-title-desc" "sort by title (desc)"
      ["tools_menu"; "browser_action"]
      [(16, "icons/sort-icon-title-desc-16.png")];
    mkSort "sort-by-last-access-asc" "sort by last access (asc)"
      ["tools_menu"; "browser_action"]
      [(16, "icons/sort-icon-access-time-asc-16.png")];
    mkSort "sort-by-last-access-desc" "sort by last access (desc)"
      ["tools_menu"; "browser_action"]
      [(16, "icons/sort-icon-access-time-desc-16.png")] ].

(** Settings metadata *)
Record SettingMetadata := mkSetting {
  setting_id : string;
  setting_title : string;
  setting_contexts : list string;
}.

(** Metadata for each available setting *)
Definition settingsDefs : list SettingMetadata :=
  [ mkSetting "settings-sort-auto" "sort automatically"
      ["tools_menu"; "browser_action"];
    mkSetting "settings-sort-pinned" "sort pinned tabs"
      ["tools_menu"; "browser_action"] ].

(** [settingsDefs.reduce((acc, cur) => Object.assign(acc, {[cur.id]: false}),
    {})] *)
Definition defaultDict : gmap string (option js_value) :=
  foldl (λ acc cur, <[setting_id cur := Some (VBool false)]> acc) ∅
        settingsDefs.

(** Returns the settings stored in browser persistent storage. *)
Definition initializeSettings (b : Browser) : gmap string js_value :=
  storage_get defaultDict b.

(** What the popup does besides the calls of the background page. *)
Inductive popup_event :=
  | background (e : event)
  | popup_console (method : string) (message : string)
  | window_close.

Section Handlers.
Context `{Host} `{Differ}.

(** Click handler for buttons corresponding to sort types: sorts the tabs
    by the specified comparator, then saves that comparator as the
    'last-comparator' setting.  [target_id] is [evt.target.id], [settings]
    the settings at the time the button was created. *)
Definition clickHandler (target_id : string) (settings : gmap string js_value)
    (tabs : list Tab.t) (b : Browser) : Browser * list popup_event :=
  let pass := sortTabsComparatorName target_id (settings_of settings) tabs in
  match settled pass with
  | Ok _ =>
      (storage_set "last-comparator" (VString target_id) b,
       (background <$> trace pass) ++
       [popup_console "log" ("Sort click handler: " +:+ target_id);
        window_close])
  | Throw error =>
      (b, (background <$> trace pass) ++
          [popup_console "trace" (exn_message error)])
  end.
End Handlers.

(** Click handler for buttons corresponding to settings: tells the
    background page a setting has changed.  [target_id] is [evt.target.id]
    and [checked] is [evt.target.checked]. *)
Definition settingsClickHandler (target_id : string) (checked : js_value)
    (b : Browser) : result Browser :=
  settingChanged target_id checked b.

End Popup.

(** ** What a user does to the extension after it is loaded *)

Inductive action :=
  | SettingClicked (target_id : string) (checked : js_value)
  | SortClicked (target_id : string) (settings : gmap string js_value)
                (tabs : list Tab.t).

Section Actions.
Context `{Host} `{Differ}.

(** The state after one action; a click that throws changes nothing. *)
Definition perform (b : Browser) (a : action) : Browser :=
  match a with
  | SettingClicked target_id checked =>
      match Popup.settingsClickHandler target_id checked b with
      | Ok b' => b'
      | Throw _ => b
      end
  | SortClicked target_id settings tabs =>
      (Popup.clickHandler target_id settings tabs b).1
  end.
End Actions.

(** The handler listens to both tab events exactly when the stored
    auto-sort setting is on. *)
Definition listeners_match_setting (b : Browser) : Prop :=
  tabs_onUpdated b = truthy (initializeSettings b !! "settings-sort-auto") ∧
  tabs_onCreated b = truthy (initializeSettings b !! "settings-sort-auto").

(** ** More example data *)

Module MoreExamples.
Import Examples.

(** The strip of [mixed_tabs] with other pinned tabs, one of which has a
    url that does not parse. *)
Definition mixed_tabs_broken_pin : list Tab.t :=
  [ tab 10 "not a url" "broken pin" 4 true 0;
    tab 12 "https://o.example.org/" "oscar" 6 true 1;
    tab 23 "https://z.example.org/" "zulu" 3 false 2;
    tab 22 "https://y.example.org/" "yankee" 2 false 3;
    tab 21 "https://x.example.org/" "xray" 1 false 4 ].

(** Two pinned tabs out of url order, then two normal tabs of which one has
    a url that does not parse. *)
Definition strip_with_broken_normal : list Tab.t :=
  [ tab 11 "https://p.example.org/" "papa" 5 true 0;
    tab 12 "https://o.example.org/" "oscar" 6 true 1;
    tab 31 "https://a.example.co.uk/x" "uk" 1 false 2;
    tab 7 "not a url" "broken" 0 false 3 ].

(** A profile on which auto-sort was switched on earlier. *)
Definition auto_on : Browser :=
  mkBrowser {[ "settings-sort-auto" := VBool true ]} true true.

(** A fresh profile. *)
Definition fresh : Browser := mkBrowser ∅ false false.

End MoreExamples.
(** ** The tab strip of the host

    [browser.tabs.move] belongs to the host, and the script never reads the
    strip again within a pass: what the next pass sorts is what the next
    [browser.tabs.query] answers.  Within one window the host takes the
    listed tabs one after the other.  The first is taken out of the strip
    and put back at the position [index], counted without it (a negative
    [index], of which the host accepts -1 only, and every position past the
    end mean the end).  Each of the following ones is taken out and put
    back right behind the tab moved before it, so that the listed tabs end
    side by side in the order of the list.  A pinned tab is not put behind
    a normal one, nor a normal tab in front of a pinned one.  The query
    answers the tabs in the order of the strip, each with its position as
    [index]. *)

Module TabStrip.

(** Where the tab with this id is. *)
Definition position (strip : list Tab.t) (id : Z) : option nat :=
  fst <$> list_find (λ tab, Tab.id tab = id) strip.

Definition numPinnedTabs (strip : list Tab.t) : nat :=
  length (filter (λ tab, Tab.pinned tab = true) strip).

(** The tab at position [from] is taken out and put back at position [to],
    on its side of the boundary between pinned and normal tabs. *)
Definition moveTabTo (strip : list Tab.t) (from to : nat) : list Tab.t :=
  match strip !! from with
  | None => strip
  | Some tab =>
      let to := if Tab.pinned tab
                then Nat.min to (numPinnedTabs strip - 1)
                else Nat.max to (numPinnedTabs strip) in
      let rest := delete from strip in
      take to rest ++ tab :: drop to rest
  end.

(** One tab of the list; [lastInsertion] is where the tab moved before it
    is now, [None] for the first. *)
Definition move_one (index : Z) (st : list Tab.t * option nat) (id : Z)
  : list Tab.t * option nat :=
  let '(strip, lastInsertion) := st in
  match position strip id with
  | None => st
  | Some from =>
      if bool_decide (length strip = 1%nat) then (strip, Some 0%nat)
      else
        let insertionPoint :=
          match lastInsertion with
          | None =>
              let maxIndex := (length strip - 1)%nat in
              if bool_decide (index < 0) then maxIndex
              else Nat.min (Z.to_nat index) maxIndex
          | Some last =>
              if bool_decide (from ≤ last)%nat then last else S last
          end in
        let pinned := default false (Tab.pinned <$> strip !! from) in
        let allowed :=
          if pinned
          then bool_decide (insertionPoint ≤ numPinnedTabs strip)%nat
          else bool_decide (numPinnedTabs strip ≤ insertionPoint)%nat in
        if allowed
        then let strip' := moveTabTo strip from insertionPoint in
             (strip', position strip' id)
        else st
  end.

(** [browser.tabs.move(movingIds, {index})]; with an id that is not in the
    strip the call is refused and nothing is moved. *)
Definition move (strip : list Tab.t) (m : MoveOp) : list Tab.t :=
  if forallb (λ id, bool_decide (is_Some (position strip id))) (movingIds m)
  then (foldl (move_one (index m)) (strip, None) (movingIds m)).1
  else strip.

(** [browser.tabs.query({currentWindow: true})] *)
Definition query (strip : list Tab.t) : list Tab.t :=
  imap (λ i tab, Tab.mk (Tab.id tab) (Tab.url tab) (Tab.title tab)
                        (Tab.lastAccessed tab) (Tab.pinned tab) (Z.of_nat i))
       strip.

(** The strip after the host calls of a run. *)
Definition replay (strip : list Tab.t) (calls : list event) : list Tab.t :=
  foldl (λ strip call, match call with
                       | tabs_move m => move strip m
                       | _ => strip
                       end) strip calls.

(** What the query of a next run answers after the host calls of [first]. *)
Definition after (strip : list Tab.t) (first : run) : list Tab.t :=
  query (replay strip (trace first)).

End TabStrip.
(** * Properties *)

(** ** Completions *)

Definition is_Ok {A} (r : result A) : Prop := ∃ a, r = Ok a.

Lemma bind_Ok {A B} (f : A → result B) (r : result A) (b : B) :
  r ≫= f = Ok b ↔ ∃ a, r = Ok a ∧ f a = Ok b.
Proof.
  destruct r as [a|e]; simpl; split.
  - intros Hf. by exists a.
  - by intros (a' & [= <-] & Hf).
  - done.
  - by intros (a' & [=] & _).
Qed.

Lemma bind_Throw {A B} (f : A → result B) (r : result A) (e : exn) :
  r = Throw e → r ≫= f = Throw e.
Proof. by intros ->. Qed.

(** ** The sort *)

Section ArraySortFacts.
Context {A : Type} (comparefn : A → A → result Z).

Lemma sort_insert_Permutation x s s' :
  sort_insert comparefn x s = Ok s' → s' ≡ₚ x :: s.
Proof.
  revert s'. induction s as [|y r IH]; intros s'; simpl.
  - by intros [= <-].
  - destruct (comparefn x y) as [v|]; simpl; [|done].
    destruct (v <=? 0).
    + by intros [= <-].
    + destruct (sort_insert comparefn x r) as [r'|]; simpl; [|done].
      intros [= <-]. rewrite (IH r' eq_refl). apply Permutation_swap.
Qed.

Lemma sort_with_Permutation l s :
  sort_with comparefn l = Ok s → s ≡ₚ l.
Proof.
  revert s. induction l as [|x r IH]; intros s; simpl.
  - by intros [= <-].
  - destruct (sort_with comparefn r) as [s0|]; simpl; [|done].
    intros Hins. apply sort_insert_Permutation in Hins.
    by rewrite Hins, (IH s0 eq_refl).
Qed.

Lemma sort_insert_sublist x s s' :
  sort_insert comparefn x s = Ok s' → s `sublist_of` s'.
Proof.
  revert s'. induction s as [|y r IH]; intros s'; simpl.
  - intros _. apply sublist_nil_l.
  - destruct (comparefn x y) as [v|]; simpl; [|done].
    destruct (v <=? 0).
    + intros [= <-]. by apply sublist_cons.
    + destruct (sort_insert comparefn x r) as [r'|]; simpl; [|done].
      intros [= <-]. apply sublist_skip. by apply IH.
Qed.

(** [x] is put in front of every element it does not compare greater
    than. *)
Lemma sort_insert_before x y v s s' :
  y ∈ s → comparefn x y = Ok v → v ≤ 0 →
  sort_insert comparefn x s = Ok s' → [x; y] `sublist_of` s'.
Proof.
  intros Hy Hxy Hv. revert s' Hy.
  induction s as [|z r IH]; intros s' Hy; simpl.
  - by apply elem_of_nil in Hy.
  - destruct (comparefn x z) as [w|] eqn:Hxz; simpl; [|done].
    destruct (w <=? 0) eqn:Hw.
    + intros [= <-]. apply sublist_skip. by apply singleton_sublist_l.
    + destruct (sort_insert comparefn x r) as [r'|] eqn:Hr; simpl; [|done].
      intros [= <-]. apply sublist_cons, IH; [|done].
      apply elem_of_cons in Hy as [->|Hy]; [|done].
      rewrite Hxy in Hxz. injection Hxz as ->. lia.
Qed.

(** Stability: two elements that compare equal keep their input order. *)
Lemma sort_with_stable a b l s :
  [a; b] `sublist_of` l → comparefn a b = Ok 0 →
  sort_with comparefn l = Ok s → [a; b] `sublist_of` s.
Proof.
  intros Hab Hcmp. revert s Hab.
  induction l as [|x r IH]; intros s Hab; simpl.
  - by apply sublist_nil_r in Hab.
  - destruct (sort_with comparefn r) as [s0|] eqn:Hr; simpl; [|done].
    intros Hins. apply sublist_cons_r in Hab as [Hab|(l' & [= <- <-] & Hb)].
    + etrans; [by apply IH|]. by eapply sort_insert_sublist.
    + apply singleton_sublist_l in Hb.
      eapply sort_insert_before; [|done| |done]; [|lia].
      by rewrite (sort_with_Permutation r s0 Hr).
Qed.

(** A comparator that returns on the elements of [l] lets the sort
    return. *)
Lemma sort_insert_total x s :
  (∀ y, y ∈ s → is_Ok (comparefn x y)) → is_Ok (sort_insert comparefn x s).
Proof.
  induction s as [|y r IH]; intros Hok; simpl.
  - by eexists.
  - destruct (Hok y) as [v ->]; [by left|]. simpl.
    destruct (v <=? 0); [by eexists|].
    destruct IH as [r' ->]; [|by eexists].
    intros z Hz. apply Hok. by right.
Qed.

Lemma sort_with_total l :
  (∀ x y, x ∈ l → y ∈ l → is_Ok (comparefn x y)) →
  is_Ok (sort_with comparefn l).
Proof.
  induction l as [|x r IH]; intros Hok; simpl.
  - by eexists.
  - destruct IH as [s Hs].
    { intros y z Hy Hz. apply Hok; by right. }
    rewrite Hs. simpl. apply sort_insert_total.
    intros y Hy. apply Hok; [by left|].
    right. by rewrite <-(sort_with_Permutation r s Hs).
Qed.

Lemma sort_with_in_order l : in_order comparefn l → sort_with comparefn l = Ok l.
Proof.
  induction l as [|x [|y r] IH]; [done..|].
  intros [(v & Hv & Hle) Hr].
  change (sort_with comparefn (y :: r) ≫= sort_insert comparefn x
          = Ok (x :: y :: r)).
  rewrite (IH Hr). simpl. rewrite Hv. simpl.
  by destruct (Z.leb_spec v 0); [|lia].
Qed.

Lemma all_equal_in_order l :
  (∀ x y, x ∈ l → y ∈ l → comparefn x y = Ok 0) → in_order comparefn l.
Proof.
  induction l as [|x [|y r] IH]; [done..|].
  intros Heq. split.
  - exists 0. split; [|done]. apply Heq; [by left|by right; left].
  - apply IH. intros a b Ha Hb. apply Heq; by right.
Qed.
End ArraySortFacts.

(** ** Array helpers against positions *)

Lemma position_of_cons x y l :
  Spec.position_of x (y :: l) =
  if decide (y = x) then Some 0%nat else S <$> Spec.position_of x l.
Proof.
  unfold Spec.position_of. simpl. case_decide; [done|].
  by destruct (list_find _ l) as [[i z]|].
Qed.

Lemma indexOf_None l : indexOf l None = -1.
Proof. induction l as [|y r IH]; simpl; [done|]. by rewrite IH. Qed.

Lemma indexOf_position l x :
  indexOf l (Some x) = from_option Z.of_nat (-1) (Spec.position_of x l).
Proof.
  induction l as [|y r IH]; [done|].
  simpl. rewrite position_of_cons, IH.
  destruct (decide (y = x)) as [->|Hne].
  - by rewrite decide_True.
  - rewrite decide_False by congruence.
    destruct (Spec.position_of x r) as [p|]; simpl; [|done].
    destruct (Z.ltb_spec (Z.of_nat p) 0); lia.
Qed.

Lemma position_of_lookup x l p :
  Spec.position_of x l = Some p → l !! p = Some x.
Proof.
  unfold Spec.position_of. destruct (list_find _ l) as [[i z]|] eqn:Hf; [|done].
  simpl. intros [= <-]. by apply list_find_Some in Hf as (? & -> & _).
Qed.

Lemma position_of_lt x l p :
  Spec.position_of x l = Some p → (p < length l)%nat.
Proof. intros Hp. eapply lookup_lt_Some, position_of_lookup, Hp. Qed.

Lemma position_of_elem x l : x ∈ l → is_Some (Spec.position_of x l).
Proof.
  intros Hx. unfold Spec.position_of.
  destruct (list_find_elem_of (λ y, y = x) l x Hx eq_refl) as [[i z] ->].
  by eexists.
Qed.

Lemma at_index_nat {A} (l : list A) (n : nat) :
  at_index l (Z.of_nat n) = l !! n.
Proof.
  unfold at_index. destruct (Z.ltb_spec (Z.of_nat n) 0); [lia|].
  by rewrite Nat2Z.id.
Qed.

Lemma splice_nat {A} (l items : list A) (d : nat) :
  splice l (Z.of_nat d) items = take d l ++ items ++ drop d l.
Proof.
  unfold splice. destruct (Z.ltb_spec (Z.of_nat d) 0); [lia|].
  destruct (decide (d ≤ length l)%nat).
  - by rewrite Z.min_l, Nat2Z.id by lia.
  - rewrite Z.min_r, Nat2Z.id by lia.
    by rewrite !take_ge, !drop_ge by lia.
Qed.

(** ** One iteration of the loop *)

Lemma loop_body_not_added b a off st c :
  added c = false → loop_body b a off st c = st.
Proof. unfold loop_body. by intros ->. Qed.

(** On an inserted run whose ids are ids of the partition, the iteration
    computes the destination the specification describes, requests that
    move and updates [currentIds] as described. *)
Lemma loop_body_added b a off st c :
  added c = true → value c ≠ [] →
  (∀ x, x ∈ value c → x ∈ a) → (∀ x, x ∈ a → x ∈ currentIds st) →
  ∃ d, Spec.destinationIndex b a (currentIds st) (value c) = Some d ∧
       loop_body b a off st c =
         mkState (Spec.relocate (currentIds st) (value c) d)
                 (issued st ++ [mkMove (value c) (Z.of_nat d + off)]).
Proof.
  intros Hadd Hne Hrun Hcur.
  destruct (last (value c)) as [lastId|] eqn:Hlast;
    [|by apply last_None in Hlast].
  destruct (head (value c)) as [first|] eqn:Hhead;
    [|by apply head_None in Hhead].
  assert (lastId ∈ a) as Hla by (by apply Hrun, last_Some_elem_of).
  assert (first ∈ currentIds st) as Hfc.
  { apply Hcur, Hrun. destruct (value c); simplify_eq/=. by left. }
  destruct (position_of_elem _ _ Hla) as [p Hp].
  destruct (position_of_elem _ _ Hfc) as [o Ho].
  assert (∃ d0,
    match a !! S p with
    | Some anchor => Spec.position_of anchor (currentIds st)
    | None => Some (length b)
    end = Some d0 ∧
    (let newIndex :=
       if indexOf a (Some lastId) + 1 <? Z.of_nat (length a)
       then indexOf (currentIds st) (at_index a (indexOf a (Some lastId) + 1))
       else -1 in
     if newIndex <? 0 then Z.of_nat (length b) else newIndex) = Z.of_nat d0)
    as (d0 & Hd0 & Hnew).
  { rewrite indexOf_position, Hp. simpl.
    replace (Z.of_nat p + 1) with (Z.of_nat (S p)) by lia.
    rewrite at_index_nat.
    destruct (a !! S p) as [anchor|] eqn:Hanchor.
    - assert (anchor ∈ currentIds st) as Hac
        by (by eapply Hcur, list_elem_of_lookup_2).
      destruct (position_of_elem _ _ Hac) as [d0 Hd0]. exists d0.
      split; [done|]. apply lookup_lt_Some in Hanchor.
      destruct (Z.ltb_spec (Z.of_nat (S p)) (Z.of_nat (length a))); [|lia].
      rewrite indexOf_position, Hd0. simpl.
      by destruct (Z.ltb_spec (Z.of_nat d0) 0); [lia|].
    - exists (length b). split; [done|]. apply lookup_ge_None in Hanchor.
      by destruct (Z.ltb_spec (Z.of_nat (S p)) (Z.of_nat (length a))); [lia|]. }
  exists (if decide (o < d0)%nat then pred d0 else d0). split.
  - unfold Spec.destinationIndex. rewrite Hlast. simpl. rewrite Hp. simpl.
    rewrite Hd0. simpl. rewrite Hhead. simpl. by rewrite Ho.
  - unfold loop_body. rewrite Hadd. simpl. rewrite Hlast, Hhead.
    cbv zeta in Hnew. rewrite Hnew.
    rewrite (indexOf_position _ first), Ho. simpl.
    destruct (decide (o < d0)%nat);
      destruct (Z.ltb_spec (Z.of_nat o) (Z.of_nat d0)); try lia.
    + replace (Z.of_nat d0 - 1) with (Z.of_nat (pred d0)) by lia.
      by rewrite splice_nat.
    + by rewrite splice_nat.
Qed.

(** ** The working copy stays a permutation *)

Lemma relocate_Permutation cur ids d :
  NoDup cur → NoDup ids → (∀ x, x ∈ ids → x ∈ cur) →
  Spec.relocate cur ids d ≡ₚ cur.
Proof.
  intros Hcur Hids Hsub. unfold Spec.relocate.
  set (rest := filter (λ id, id ∉ ids) cur).
  trans (ids ++ rest).
  { rewrite <-(take_drop d rest) at 3.
    by rewrite (assoc (++)), (comm (++) (take d rest)), <-(assoc (++)). }
  apply NoDup_Permutation; [|done|].
  - apply NoDup_app. split_and!; [done| |by apply NoDup_filter].
    intros x Hx [Hnx _]%list_elem_of_filter. done.
  - intros x. rewrite elem_of_app. unfold rest. rewrite list_elem_of_filter.
    split.
    + intros [Hx|[_ Hx]]; [by apply Hsub|done].
    + intros Hx. destruct (decide (x ∈ ids)); [by left|by right].
Qed.

Lemma destinationIndex_lt b a cur ids d :
  length cur = length b →
  Spec.destinationIndex b a cur ids = Some d → (d < length b)%nat.
Proof.
  intros Hlen. unfold Spec.destinationIndex.
  destruct (last ids) as [lastId|]; simpl; [|done].
  destruct (Spec.position_of lastId a) as [p|]; simpl; [|done].
  destruct (a !! S p) as [anchor|].
  - destruct (Spec.position_of anchor cur) as [d0|] eqn:Hd0; simpl; [|done].
    apply position_of_lt in Hd0.
    destruct (head ids); simpl; [|done].
    destruct (Spec.position_of _ cur) as [o|]; simpl; [|done].
    intros [= <-]. case_decide; lia.
  - simpl. destruct (head ids); simpl; [|done].
    destruct (Spec.position_of _ cur) as [o|] eqn:Ho; simpl; [|done].
    apply position_of_lt in Ho.
    intros [= <-]. case_decide; lia.
Qed.

(** ** Edit scripts *)

Lemma chunk_sublist_new_side s c :
  c ∈ s → removed c = false → value c `sublist_of` new_side s.
Proof.
  unfold new_side. induction s as [|c0 s IH]; intros Hc Hrem.
  - by apply elem_of_nil in Hc.
  - rewrite filter_cons. apply elem_of_cons in Hc as [<-|Hc].
    + rewrite decide_True by done. simpl. by apply sublist_inserts_r.
    + case_decide; simpl; [apply sublist_inserts_l|]; by apply IH.
Qed.

Lemma edit_script_inserted b a s c :
  edit_script b a s → c ∈ s → added c = true →
  value c ≠ [] ∧ value c `sublist_of` a.
Proof.
  intros [_ Hnew Hwf] Hc Hadd.
  rewrite Forall_forall in Hwf. destruct (Hwf c Hc) as [Hne [Hf|Hf]].
  - congruence.
  - split; [done|]. rewrite <-Hnew. by apply chunk_sublist_new_side.
Qed.

Lemma inserted_runs_added c s :
  added c = true →
  Spec.inserted_runs (c :: s) = value c :: Spec.inserted_runs s.
Proof.
  intros Hadd. unfold Spec.inserted_runs.
  by rewrite filter_cons, decide_True.
Qed.

Lemma inserted_runs_not_added c s :
  added c = false → Spec.inserted_runs (c :: s) = Spec.inserted_runs s.
Proof.
  intros Hadd. unfold Spec.inserted_runs.
  rewrite filter_cons, decide_False; [done|]. by rewrite Hadd.
Qed.

(** ** The whole loop *)

(** The state the loop reaches is the one the specification's pass
    computes, and every move it requests relocates ids of the partition to
    an index of the partition. *)
Lemma foldl_loop_body b a off cs : ∀ cur iss,
  NoDup a → cur ≡ₚ a → length b = length a →
  (∀ c, c ∈ cs → added c = true → value c ≠ [] ∧ value c `sublist_of` a) →
  ∃ ops final,
    Spec.pass b a off cur (Spec.inserted_runs cs) = Some (ops, final) ∧
    foldl (loop_body b a off) (mkState cur iss) cs = mkState final (iss ++ ops) ∧
    final ≡ₚ a ∧
    Forall (λ m, (∀ x, x ∈ movingIds m → x ∈ a) ∧
                 off ≤ index m < off + Z.of_nat (length b)) ops.
Proof.
  induction cs as [|c cs IH]; intros cur iss Hnd Hperm Hlen Hruns.
  { exists [], cur. simpl. by rewrite (right_id [] (++)). }
  destruct (added c) eqn:Hadd.
  - destruct (Hruns c) as [Hne Hsub]; [by left|done|].
    assert (∀ x, x ∈ value c → x ∈ a) as Hin
      by (intros x Hx; by eapply elem_of_sublist).
    destruct (loop_body_added b a off (mkState cur iss) c Hadd Hne Hin)
      as (d & Hd & Hbody).
    { intros x Hx. simpl. by rewrite Hperm. }
    simpl in Hd, Hbody.
    assert (Spec.relocate cur (value c) d ≡ₚ a) as Hperm'.
    { rewrite <-Hperm. apply relocate_Permutation.
      - by rewrite Hperm.
      - by eapply sublist_NoDup.
      - intros x Hx. rewrite Hperm. by apply Hin. }
    destruct (IH (Spec.relocate cur (value c) d)
                 (iss ++ [mkMove (value c) (Z.of_nat d + off)]))
      as (ops & final & Hpass & Hfold & Hfin & Hops); [done..| |].
    { intros c' Hc'. apply Hruns. by right. }
    exists (mkMove (value c) (Z.of_nat d + off) :: ops), final.
    split_and!; [| |done|].
    + rewrite inserted_runs_added by done.
      cbn [Spec.pass]. rewrite Hd. cbn [mbind option_bind]. by rewrite Hpass.
    + simpl. rewrite Hbody, Hfold. by rewrite <-(assoc (++)).
    + constructor; [|done]. simpl. split; [done|].
      apply destinationIndex_lt in Hd; [lia|].
      by rewrite Hlen, Hperm.
  - destruct (IH cur iss) as (ops & final & Hpass & Hfold & Hfin & Hops);
      [done..| |].
    { intros c' Hc'. apply Hruns. by right. }
    exists ops, final. split_and!; [| |done..].
    + by rewrite inserted_runs_not_added.
    + simpl. by rewrite loop_body_not_added.
Qed.

(** ** One pass over a partition *)

Lemma Array_sort_Permutation tabs comparator sorted :
  Array_sort tabs comparator = Ok sorted → sorted ≡ₚ tabs.
Proof. apply sort_with_Permutation. Qed.

Lemma NoDup_fmap_eq {A B} (f : A → B) (l : list A) x y :
  NoDup (f <$> l) → x ∈ l → y ∈ l → f x = f y → x = y.
Proof.
  induction l as [|z l IH]; intros Hnd Hx Hy Hf.
  - by apply elem_of_nil in Hx.
  - rewrite fmap_cons in Hnd. apply NoDup_cons in Hnd as [Hz Hnd].
    apply elem_of_cons in Hx as [->|Hx]; apply elem_of_cons in Hy as [->|Hy].
    + done.
    + destruct Hz. rewrite Hf. by apply list_elem_of_fmap_2.
    + destruct Hz. rewrite <-Hf. by apply list_elem_of_fmap_2.
    + by apply IH.
Qed.

(** With an edit script from the diff, a pass on a partition with distinct
    ids returns, and what it did is what the specification's pass
    computes. *)
Lemma sortTabsInternal_pass `{Differ} tabs comparator sorted :
  NoDup (Tab.id <$> tabs) →
  Array_sort tabs comparator = Ok sorted →
  edit_script (Tab.id <$> tabs) (Tab.id <$> sorted)
              (diff (Tab.id <$> tabs) (Tab.id <$> sorted)) →
  ∃ ops final,
    sortTabsInternal tabs comparator = Ok (mkState final ops) ∧
    Spec.pass (Tab.id <$> tabs) (Tab.id <$> sorted) (Spec.offset tabs)
              (Tab.id <$> tabs)
              (Spec.inserted_runs (diff (Tab.id <$> tabs) (Tab.id <$> sorted)))
      = Some (ops, final) ∧
    final ≡ₚ Tab.id <$> tabs ∧
    Forall (λ m, (∀ x, x ∈ movingIds m → x ∈ Tab.id <$> tabs) ∧
                 Spec.in_partition_range tabs (index m)) ops.
Proof.
  intros Hnd Hsort Hscript.
  pose proof (Array_sort_Permutation _ _ _ Hsort) as Hperm.
  assert (Tab.id <$> sorted ≡ₚ Tab.id <$> tabs) as Hids by (by rewrite Hperm).
  destruct tabs as [|tab0 tabs'].
  - apply Permutation_nil_r in Hperm as ->.
    assert (Spec.inserted_runs (diff [] []) = []) as Hruns.
    { unfold Spec.inserted_runs.
      destruct (filter _ (diff [] [])) as [|c cs] eqn:Hf; [done|].
      assert (c ∈ filter (λ c, added c = true) (diff [] [])) as Hc
        by (rewrite Hf; by left).
      apply list_elem_of_filter in Hc as [Hadd Hc].
      destruct (edit_script_inserted _ _ _ _ Hscript Hc Hadd) as [Hne Hsub].
      by apply sublist_nil_r in Hsub. }
    exists [], []. simpl in *. rewrite Hruns. by split_and!.
  - set (tabs := tab0 :: tabs') in *.
    destruct (foldl_loop_body (Tab.id <$> tabs) (Tab.id <$> sorted)
                (Tab.index tab0)
                (diff (Tab.id <$> tabs) (Tab.id <$> sorted))
                (Tab.id <$> tabs) [])
      as (ops & final & Hpass & Hfold & Hfin & Hops).
    + by rewrite Hids.
    + by rewrite Hids.
    + by rewrite Hids.
    + intros c Hc Hadd. by eapply edit_script_inserted.
    + exists ops, final. split_and!.
      * unfold sortTabsInternal. subst tabs. cbv zeta. rewrite Hsort.
        cbn [mbind result_bind]. unfold mret, result_ret. f_equal.
        exact Hfold.
      * done.
      * by rewrite Hfin, Hids.
      * eapply Forall_impl; [exact Hops|].
        intros m [Hm Hix]. split.
        -- intros x Hx. rewrite <-Hids. by apply Hm.
        -- rewrite length_fmap in Hix. exact Hix.
Qed.

(** C2: for every inserted run of the diff, [sortTabsInternal] computes the
    move's destination as the specification describes it: the anchor is the
    element that follows the run's last id in [afterIds]; the destination is
    the anchor's current position in [currentIds], or the length of
    [beforeIds] when the run is at the end; it is decremented by one exactly
    when the run's first element currently precedes it; and the index
    requested from the host is the destination plus the index of the
    partition's first tab.  Stated for a whole pass: the moves requested and
    the final working copy are those of [Spec.pass]. *)
Theorem sortTabsInternal_destination_as_specified `{Differ}
    (tabs sorted : list Tab.t) (comparator : option Comparator) :
  NoDup (Tab.id <$> tabs) →
  Array_sort tabs comparator = Ok sorted →
  edit_script (Tab.id <$> tabs) (Tab.id <$> sorted)
              (diff (Tab.id <$> tabs) (Tab.id <$> sorted)) →
  ∃ st, sortTabsInternal tabs comparator = Ok st ∧
        Spec.pass (Tab.id <$> tabs) (Tab.id <$> sorted) (Spec.offset tabs)
                  (Tab.id <$> tabs)
                  (Spec.inserted_runs
                     (diff (Tab.id <$> tabs) (Tab.id <$> sorted)))
          = Some (issued st, currentIds st).
Proof.
  intros Hnd Hsort Hscript.
  destruct (sortTabsInternal_pass tabs comparator sorted Hnd Hsort Hscript)
    as (ops & final & Hrun & Hpass & _).
  by exists (mkState final ops).
Qed.

(** ** Partition isolation *)

Lemma sortTabsInternal_sorted `{Differ} tabs comparator st :
  sortTabsInternal tabs comparator = Ok st →
  ∃ sorted, Array_sort tabs comparator = Ok sorted.
Proof.
  destruct tabs as [|tab0 tabs']; [by exists []|].
  unfold sortTabsInternal. cbv zeta.
  destruct (Array_sort (tab0 :: tabs') comparator) as [sorted|]; [|done].
  by exists sorted.
Qed.

(** Every move of a pass relocates ids of the partition to an index the
    partition occupies. *)
Lemma sortTabsInternal_moves `{Differ} tabs comparator st m :
  differ_edit_scripts → NoDup (Tab.id <$> tabs) →
  sortTabsInternal tabs comparator = Ok st → m ∈ issued st →
  (∀ x, x ∈ movingIds m → x ∈ Tab.id <$> tabs) ∧
  Spec.in_partition_range tabs (index m).
Proof.
  intros Hdiff Hnd Hrun Hm.
  destruct (sortTabsInternal_sorted _ _ _ Hrun) as [sorted Hsort].
  destruct (sortTabsInternal_pass tabs comparator sorted Hnd Hsort (Hdiff _ _))
    as (ops & final & Hrun' & _ & _ & Hops).
  rewrite Hrun in Hrun'. injection Hrun' as ->. simpl in Hm.
  rewrite Forall_forall in Hops. by apply Hops.
Qed.

(** The moves in the trace of [sortTabs] are those of the pass over the
    pinned tabs, when that pass is enabled, and of the pass over the normal
    tabs. *)
Lemma sortTabs_moves `{Differ} comparator settings tabs m :
  tabs_move m ∈ trace (sortTabs comparator settings tabs) →
  (settings_sort_pinned settings = true ∧
   ∃ st, sortTabsInternal (filter (λ tab, Tab.pinned tab = true) tabs)
                          comparator = Ok st ∧ m ∈ issued st) ∨
  (∃ st, sortTabsInternal (filter (λ tab, Tab.pinned tab ≠ true) tabs)
                          comparator = Ok st ∧ m ∈ issued st).
Proof.
  assert (∀ l, tabs_move m ∈ tabs_query :: (tabs_move <$> l) → m ∈ l) as Hin.
  { intros l [[=]|Hl]%elem_of_cons.
    apply list_elem_of_fmap in Hl as (m' & [= ->] & Hl). done. }
  unfold sortTabs.
  destruct (sortTabsInternal (filter (λ tab, Tab.pinned tab ≠ true) tabs)
              comparator) as [st2|] eqn:H2;
    (destruct (settings_sort_pinned settings);
     [destruct (sortTabsInternal (filter (λ tab, Tab.pinned tab = true) tabs)
                  comparator) as [st1|] eqn:H1|]);
    cbn [mret result_ret trace issued]; intros Hm.
  - apply Hin, elem_of_app in Hm as [Hm|Hm].
    + left. split; [done|]. by exists st1.
    + right. by exists st2.
  - by apply list_elem_of_singleton in Hm.
  - apply Hin in Hm. simpl in Hm. right. by exists st2.
  - apply Hin in Hm. left. split; [done|]. by exists st1.
  - by apply list_elem_of_singleton in Hm.
  - apply Hin in Hm. by apply elem_of_nil in Hm.
Qed.

Lemma NoDup_ids_filter (P : Tab.t → Prop) `{∀ x, Decision (P x)} tabs :
  NoDup (Tab.id <$> tabs) → NoDup (Tab.id <$> filter P tabs).
Proof.
  intros Hnd. eapply sublist_NoDup; [exact Hnd|apply fmap_sublist, sublist_filter].
Qed.

(** C3: when the sort-pinned setting is off, no move requested by [sortTabs]
    carries the id of a pinned tab; and, whatever the setting, every move
    comes from one partition (the pinned tabs or the normal tabs), carries
    ids of that partition only and targets an index among those the
    partition occupies, so no move crosses the pinned/normal boundary. *)
Theorem sortTabs_partition_isolation `{Differ}
    (comparator : option Comparator) (settings : Settings)
    (tabs : list Tab.t) (m : MoveOp) :
  differ_edit_scripts →
  NoDup (Tab.id <$> tabs) →
  tabs_move m ∈ trace (sortTabs comparator settings tabs) →
  (settings_sort_pinned settings = false →
   ∀ tab, tab ∈ tabs → Tab.pinned tab = true → Tab.id tab ∉ movingIds m) ∧
  (∃ partition,
     (partition = filter (λ tab, Tab.pinned tab = true) tabs ∨
      partition = filter (λ tab, Tab.pinned tab ≠ true) tabs) ∧
     (∀ x, x ∈ movingIds m → x ∈ Tab.id <$> partition) ∧
     Spec.in_partition_range partition (index m)).
Proof.
  intros Hdiff Hnd Hm.
  apply sortTabs_moves in Hm as [[Hpin (st & Hrun & Hm)]|(st & Hrun & Hm)].
  - destruct (sortTabsInternal_moves _ _ _ _ Hdiff
                (NoDup_ids_filter _ _ Hnd) Hrun Hm) as [Hids Hrange].
    split; [by rewrite Hpin|]. eexists. split; [by left|done].
  - destruct (sortTabsInternal_moves _ _ _ _ Hdiff
                (NoDup_ids_filter _ _ Hnd) Hrun Hm) as [Hids Hrange].
    split; [|eexists; split; [by right|done]].
    intros _ tab Htab Hpinned Hmoving.
    apply Hids, list_elem_of_fmap in Hmoving as (tab' & Heq & Htab').
    apply list_elem_of_filter in Htab' as [Hnormal Htab'].
    by rewrite (NoDup_fmap_eq Tab.id tabs tab tab' Hnd Htab Htab' Heq)
      in Hpinned.
Qed.

(** ** Input that is already in order *)

Lemma new_side_length s :
  Forall well_formed_chunk s →
  length (new_side s) =
  (length (common_side s) + length (concat (Spec.inserted_runs s)))%nat.
Proof.
  unfold new_side, common_side, Spec.inserted_runs.
  induction 1 as [|c s [Hne Hflags] Hs IH]; [done|].
  rewrite !filter_cons.
  destruct c as [[] [] v]; cbn [added removed value] in *;
    repeat case_decide; try done; try (by destruct Hflags);
    try (by destruct_and?); try (by destruct_or?; destruct_and?; auto);
    rewrite ?fmap_cons, ?concat_cons, ?length_app; cbn [value]; lia.
Qed.

(** A script that keeps a longest common subsequence of a sequence with
    itself has no inserted run. *)
Lemma lcs_script_same_no_runs ids s :
  lcs_script ids ids s → Spec.inserted_runs s = [].
Proof.
  intros [[Hold Hnew Hwf] Hmax].
  pose proof (new_side_length s Hwf) as Hlen.
  specialize (Hmax ids (reflexivity _) (reflexivity _)).
  rewrite Hnew in Hlen.
  destruct (Spec.inserted_runs s) as [|r rs] eqn:Hruns; [done|].
  assert (r ∈ Spec.inserted_runs s) as Hr by (rewrite Hruns; by left).
  unfold Spec.inserted_runs in Hr.
  apply list_elem_of_fmap in Hr as (c & -> & Hc).
  apply list_elem_of_filter in Hc as [_ Hc].
  rewrite Forall_forall in Hwf. destruct (Hwf c Hc) as [Hne _].
  simpl in Hlen. rewrite length_app in Hlen.
  destruct (value c); [done|]. simpl in Hlen. lia.
Qed.

Lemma foldl_no_inserted_runs b a off cs st :
  Spec.inserted_runs cs = [] → foldl (loop_body b a off) st cs = st.
Proof.
  induction cs as [|c cs IH]; [done|].
  destruct (added c) eqn:Hadd.
  - by rewrite inserted_runs_added.
  - rewrite inserted_runs_not_added by done. intros Hruns.
    simpl. rewrite loop_body_not_added by done. by apply IH.
Qed.

(** When sorting leaves the ids where they are, the pass requests no
    move. *)
Lemma sortTabsInternal_in_place `{Differ} tabs comparator sorted :
  Array_sort tabs comparator = Ok sorted →
  Tab.id <$> sorted = Tab.id <$> tabs →
  lcs_script (Tab.id <$> tabs) (Tab.id <$> tabs)
             (diff (Tab.id <$> tabs) (Tab.id <$> tabs)) →
  sortTabsInternal tabs comparator = Ok (mkState (Tab.id <$> tabs) []).
Proof.
  intros Hsort Hids Hscript.
  destruct tabs as [|tab0 tabs']; [done|].
  unfold sortTabsInternal. cbv zeta. rewrite Hsort.
  cbn [mbind result_bind]. unfold mret, result_ret. f_equal.
  rewrite Hids. apply foldl_no_inserted_runs.
  by eapply lcs_script_same_no_runs.
Qed.

Lemma sortTabsInternal_in_order `{Differ} tabs comparator :
  in_order (SortCompare comparator) tabs →
  lcs_script (Tab.id <$> tabs) (Tab.id <$> tabs)
             (diff (Tab.id <$> tabs) (Tab.id <$> tabs)) →
  sortTabsInternal tabs comparator = Ok (mkState (Tab.id <$> tabs) []).
Proof.
  intros Hord. apply (sortTabsInternal_in_place tabs comparator tabs); [|done].
  by apply sort_with_in_order.
Qed.

(** C8: the sort is stable: two tabs that compare equal keep their input
    order in the sorted sequence; and when every pair of tabs compares
    equal the sorted sequence is the input and the pass requests no move,
    which is the case of tabs with one and the same title under the
    ascending and under the descending title comparator. *)
Theorem sort_stable_no_moves_when_equal `{Host} `{Differ} :
  (∀ tabs comparator sorted a b,
     Array_sort tabs comparator = Ok sorted →
     [a; b] `sublist_of` tabs →
     SortCompare comparator a b = Ok 0 →
     [a; b] `sublist_of` sorted) ∧
  (∀ tabs comparator,
     differ_lcs_scripts →
     (∀ x y, x ∈ tabs → y ∈ tabs → SortCompare comparator x y = Ok 0) →
     Array_sort tabs comparator = Ok tabs ∧
     sortTabsInternal tabs comparator = Ok (mkState (Tab.id <$> tabs) [])) ∧
  (∀ tabs t,
     differ_lcs_scripts →
     localeCompare t t = 0 →
     (∀ x, x ∈ tabs → Tab.title x = t) →
     sortTabsInternal tabs (Some compareByTitleAsc)
       = Ok (mkState (Tab.id <$> tabs) []) ∧
     sortTabsInternal tabs (Some compareByTitleDesc)
       = Ok (mkState (Tab.id <$> tabs) [])).
Proof.
  assert (∀ tabs comparator,
     differ_lcs_scripts →
     (∀ x y, x ∈ tabs → y ∈ tabs → SortCompare comparator x y = Ok 0) →
     Array_sort tabs comparator = Ok tabs ∧
     sortTabsInternal tabs comparator = Ok (mkState (Tab.id <$> tabs) []))
    as Hequal.
  { intros tabs comparator Hdiff Heq.
    pose proof (all_equal_in_order _ _ Heq) as Hord. split.
    - by apply sort_with_in_order.
    - by apply sortTabsInternal_in_order. }
  split_and!; [|done|].
  - intros tabs comparator sorted a b Hsort Hab Hcmp.
    by eapply sort_with_stable.
  - intros tabs t Hdiff Ht Htitles.
    split; apply Hequal; try done; intros x y Hx Hy; simpl;
      unfold compareByTitleAsc, compareByTitleDesc;
      by rewrite (Htitles x Hx), (Htitles y Hy), Ht.
Qed.

(** ** Comparators that read the url *)

Lemma new_URL_Throw `{Host} s e :
  new_URL s = Throw e → e = TypeError "Invalid URL".
Proof. unfold new_URL. destruct (parse_url s); congruence. Qed.

Lemma new_URL_malformed `{Host} s :
  parse_url s = None → new_URL s = Throw (TypeError "Invalid URL").
Proof. unfold new_URL. by intros ->. Qed.

Lemma url_comparators_Throw `{Host} comparator a b e :
  comparator ∈ url_comparators → comparator a b = Throw e →
  e = TypeError "Invalid URL".
Proof.
  unfold url_comparators. rewrite !elem_of_cons, elem_of_nil.
  intros [->|[->|[->|[->|[]]]]];
    unfold compareByUrlAsc, compareByUrlDesc, compareByDomainAsc,
           compareByDomainDesc;
    destruct (new_URL (Tab.url a)) as [u1|e1] eqn:H1; simpl;
    try (intros [= <-]; by eapply new_URL_Throw);
    destruct (new_URL (Tab.url b)) as [u2|e2] eqn:H2; simpl;
    try (intros [= <-]; by eapply new_URL_Throw); done.
Qed.

Lemma url_comparators_malformed `{Host} comparator bad other :
  comparator ∈ url_comparators → parse_url (Tab.url bad) = None →
  comparator bad other = Throw (TypeError "Invalid URL") ∧
  comparator other bad = Throw (TypeError "Invalid URL").
Proof.
  intros Hc Hbad. apply new_URL_malformed in Hbad.
  assert (∀ r : result URL,
    r = Throw (TypeError "Invalid URL") ∨ is_Ok r ∨
    ∃ e, r = Throw e ∧ e ≠ TypeError "Invalid URL") as Hcases.
  { intros [u|e]; [right; left; by eexists|].
    destruct (decide (e = TypeError "Invalid URL")) as [->|]; [by left|].
    right; right. by eexists. }
  unfold url_comparators in Hc. rewrite !elem_of_cons, elem_of_nil in Hc.
  destruct Hc as [->|[->|[->|[->|[]]]]];
    unfold compareByUrlAsc, compareByUrlDesc, compareByDomainAsc,
           compareByDomainDesc;
    rewrite Hbad; (split; [done|]);
    destruct (new_URL (Tab.url other)) as [u|e] eqn:Ho; simpl; try done;
    by rewrite (new_URL_Throw _ _ Ho).
Qed.

(** ** A throwing comparator ends the sort *)

Section ArraySortThrows.
Context {A : Type} (comparefn : A → A → result Z).

Lemma sort_insert_Throw x s e :
  sort_insert comparefn x s = Throw e → ∃ y, comparefn x y = Throw e.
Proof.
  induction s as [|y r IH]; simpl; [done|].
  destruct (comparefn x y) as [v|e'] eqn:Hxy; simpl.
  - destruct (v <=? 0); [done|].
    destruct (sort_insert comparefn x r) as [r'|e'] eqn:Hr; simpl; [done|].
    intros [= ->]. by apply IH.
  - intros [= ->]. by exists y.
Qed.

Lemma sort_with_Throw l e :
  sort_with comparefn l = Throw e → ∃ x y, comparefn x y = Throw e.
Proof.
  induction l as [|x r IH]; simpl; [done|].
  destruct (sort_with comparefn r) as [s|e'] eqn:Hr; simpl.
  - intros [y Hy]%sort_insert_Throw. by exists x, y.
  - intros [= ->]. by apply IH.
Qed.

(** Inserting among elements one of which cannot be compared: the
    insertion throws unless it stops before reaching that element. *)
Lemma sort_insert_singleton_Throw x bad e :
  comparefn x bad = Throw e → sort_insert comparefn x [bad] = Throw e.
Proof. intros Hx. simpl. by rewrite Hx. Qed.

(** Sorting two or more elements compares each of them at least once; if
    every comparison with [bad] throws [e], and nothing else is ever
    thrown, the sort throws [e]. *)
Lemma sort_with_malformed l bad e :
  (∀ x, comparefn bad x = Throw e ∧ comparefn x bad = Throw e) →
  (∀ x y e', comparefn x y = Throw e' → e' = e) →
  bad ∈ l → (2 ≤ length l)%nat →
  sort_with comparefn l = Throw e.
Proof.
  intros Hbad Honly. induction l as [|x r IH]; intros Hin Hlen.
  - by apply elem_of_nil in Hin.
  - simpl. destruct (sort_with comparefn r) as [s|e'] eqn:Hr; simpl.
    + pose proof (sort_with_Permutation _ _ _ Hr) as Hperm.
      destruct s as [|y s'].
      { apply Permutation_nil_l in Hperm. subst r. simpl in Hlen. lia. }
      apply elem_of_cons in Hin as [<-|Hin].
      * simpl. by rewrite (proj1 (Hbad y)).
      * destruct r as [|z [|z' r']].
        -- by apply elem_of_nil in Hin.
        -- apply list_elem_of_singleton in Hin as ->.
           injection Hr as <- <-. simpl. by rewrite (proj2 (Hbad x)).
        -- assert (Ok (y :: s') = Throw e) as Habs
             by (apply IH; [done|simpl; lia]).
           done.
    + destruct (sort_with_Throw _ _ Hr) as (a & b & Hab).
      by rewrite (Honly _ _ _ Hab).
Qed.
End ArraySortThrows.

Lemma sortTabsInternal_Throw `{Differ} tabs comparator e :
  (2 ≤ length tabs)%nat →
  Array_sort tabs comparator = Throw e →
  sortTabsInternal tabs comparator = Throw e.
Proof.
  destruct tabs as [|tab0 tabs']; simpl; [lia|].
  intros _ Hsort. unfold sortTabsInternal. cbv zeta. by rewrite Hsort.
Qed.

Lemma sortTabsInternal_total `{Differ} tabs comparator :
  is_Ok (Array_sort tabs comparator) →
  is_Ok (sortTabsInternal tabs comparator).
Proof.
  intros [sorted Hsort]. destruct tabs as [|tab0 tabs']; [by eexists|].
  unfold sortTabsInternal. cbv zeta. rewrite Hsort. by eexists.
Qed.

(** C6 (as amended): a tab whose url does not parse makes every call of a
    URL-based or domain-based comparator on it throw, whichever argument it
    is; and a pass over a partition of two or more tabs that contains such
    a tab ends in the sort with that exception, before any move is
    requested, so that the promise of [sortTabs] is rejected when this
    happens in the partition of normal tabs.  A partition of that tab alone
    is never compared: its pass returns, and with a diff that keeps a
    longest common subsequence it requests no move. *)
Theorem malformed_url_aborts_pass `{Host} `{Differ}
    (comparator : Comparator) (tabs : list Tab.t) (bad : Tab.t) :
  comparator ∈ url_comparators →
  bad ∈ tabs →
  parse_url (Tab.url bad) = None →
  (∀ other, comparator bad other = Throw (TypeError "Invalid URL") ∧
            comparator other bad = Throw (TypeError "Invalid URL")) ∧
  ((2 ≤ length tabs)%nat →
   sortTabsInternal tabs (Some comparator) = Throw (TypeError "Invalid URL")) ∧
  (∀ settings strip,
     tabs = filter (λ tab, Tab.pinned tab ≠ true) strip →
     (2 ≤ length tabs)%nat →
     settled (sortTabs (Some comparator) settings strip)
       = Throw (TypeError "Invalid URL")) ∧
  (length tabs = 1%nat →
   is_Ok (sortTabsInternal tabs (Some comparator)) ∧
   (lcs_script (Tab.id <$> tabs) (Tab.id <$> tabs)
               (diff (Tab.id <$> tabs) (Tab.id <$> tabs)) →
    sortTabsInternal tabs (Some comparator)
      = Ok (mkState [Tab.id bad] []))).
Proof.
  intros Hc Hin Hbad.
  assert ((2 ≤ length tabs)%nat →
    sortTabsInternal tabs (Some comparator) = Throw (TypeError "Invalid URL"))
    as Hpass.
  { intros Hlen. apply sortTabsInternal_Throw; [done|].
    apply (sort_with_malformed _ tabs bad); [|  |done..].
    - intros x. by apply url_comparators_malformed.
    - intros x y e'. by apply url_comparators_Throw. }
  split_and!; [|done| |].
  - intros other. by apply url_comparators_malformed.
  - intros settings strip -> Hlen. unfold sortTabs.
    rewrite (Hpass Hlen).
    destruct (settings_sort_pinned settings); [|done].
    destruct (sortTabsInternal (filter (λ tab, Tab.pinned tab = true) strip)
                (Some comparator)) as [st1|e] eqn:Hpinned; simpl; [done|].
    f_equal.
    destruct (filter (λ tab, Tab.pinned tab = true) strip) as [|t0 l] eqn:Hf;
      [done|].
    unfold sortTabsInternal in Hpinned. cbv zeta in Hpinned.
    destruct (Array_sort (t0 :: l) (Some comparator)) as [s|e'] eqn:Hs;
      [done|].
    injection Hpinned as ->.
    destruct (sort_with_Throw _ _ _ Hs) as (x & y & Hxy).
    by eapply url_comparators_Throw.
  - intros Hlen. destruct tabs as [|tab [|tab' tabs']]; [done| |done].
    apply list_elem_of_singleton in Hin as ->. split.
    + apply sortTabsInternal_total. by eexists.
    + intros Hdiff. by apply (sortTabsInternal_in_order [tab]).
Qed.

(** ** Comparators that do not read the url *)

Lemma field_comparators_total `{Host} comparator a b :
  comparator ∈ field_comparators → is_Ok (comparator a b).
Proof.
  unfold field_comparators. rewrite !elem_of_cons, elem_of_nil.
  intros [->|[->|[->|[->|[]]]]];
    unfold compareByTitleAsc, compareByTitleDesc, compareByLastAccessAsc,
           compareByLastAccessDesc;
    repeat case_match; by eexists.
Qed.

(** C10: the title comparators return the same result on two pairs of
    tabs that agree on the titles, and the last-access comparators on two
    pairs that agree on the last-access times, whatever the other fields
    are, the url included; so a pass sorting by title or by last access
    never throws, and the promise of [sortTabs] is fulfilled. *)
Theorem field_comparators_ignore_url `{Host} `{Differ} :
  (∀ a b a' b',
     Tab.title a = Tab.title a' → Tab.title b = Tab.title b' →
     compareByTitleAsc a b = compareByTitleAsc a' b' ∧
     compareByTitleDesc a b = compareByTitleDesc a' b') ∧
  (∀ a b a' b',
     Tab.lastAccessed a = Tab.lastAccessed a' →
     Tab.lastAccessed b = Tab.lastAccessed b' →
     compareByLastAccessAsc a b = compareByLastAccessAsc a' b' ∧
     compareByLastAccessDesc a b = compareByLastAccessDesc a' b') ∧
  (∀ comparator tabs settings,
     comparator ∈ field_comparators →
     is_Ok (Array_sort tabs (Some comparator)) ∧
     is_Ok (sortTabsInternal tabs (Some comparator)) ∧
     settled (sortTabs (Some comparator) settings tabs) = Ok ()).
Proof.
  split_and!.
  - intros a b a' b' Ha Hb.
    unfold compareByTitleAsc, compareByTitleDesc. by rewrite Ha, Hb.
  - intros a b a' b' Ha Hb.
    unfold compareByLastAccessAsc, compareByLastAccessDesc. by rewrite Ha, Hb.
  - intros comparator tabs settings Hc.
    assert (∀ l, is_Ok (Array_sort l (Some comparator))) as Hsort.
    { intros l. apply sort_with_total. intros x y _ _.
      by apply field_comparators_total. }
    assert (∀ l, is_Ok (sortTabsInternal l (Some comparator))) as Hpass
      by (intros l; apply sortTabsInternal_total, Hsort).
    split_and!; [done..|]. unfold sortTabs.
    destruct (Hpass (filter (λ tab, Tab.pinned tab ≠ true) tabs)) as [st2 ->].
    destruct (settings_sort_pinned settings); [|done].
    by destruct (Hpass (filter (λ tab, Tab.pinned tab = true) tabs))
      as [st1 ->].
Qed.

(** ** The entry points on a key without a comparator *)

Lemma sortTabsInternal_default_order `{Differ} tabs :
  differ_lcs_scripts →
  sortTabsInternal tabs None = Ok (mkState (Tab.id <$> tabs) []).
Proof.
  intros Hdiff. apply sortTabsInternal_in_order; [|done].
  by apply all_equal_in_order.
Qed.

(** [sortTabsComparatorName] does not look at what the table returns: with
    a key that has no entry, and that no object inherits, it queries the
    tabs and sorts them in the host's default order, which moves nothing,
    and writes nothing to the console. *)
Lemma sortTabsComparatorName_unknown_key `{Host} `{Differ}
    compName settings tabs :
  differ_lcs_scripts →
  compName ∉ Object_prototype →
  menuIdToComparator !! compName = None →
  sortTabsComparatorName compName settings tabs = mkRun [tabs_query] (Ok ()).
Proof.
  intros Hdiff _ Hkey. unfold sortTabsComparatorName, comparator_of.
  change (default "undefined" (Some compName)) with compName.
  rewrite Hkey. unfold sortTabs.
  rewrite !sortTabsInternal_default_order by done.
  by destruct (settings_sort_pinned settings).
Qed.

(** On the skip path, taken when the stored key has no entry and is not a
    name that every object inherits, [settingsSortAutoHandler] calls a
    console method that does not exist. *)
Lemma settingsSortAutoHandler_skip_path `{Host} `{Differ} settings tabs :
  default "undefined" (last_comparator settings) ∉ Object_prototype →
  comparator_of (last_comparator settings) = None →
  settingsSortAutoHandler (Ok settings) tabs
    = mkRun [] (Throw (TypeError "console.warning is not a function")).
Proof. intros _ Hkey. unfold settingsSortAutoHandler. by rewrite Hkey. Qed.

(** With a key of the table the handler runs the pass. *)
Lemma settingsSortAutoHandler_known_key `{Host} `{Differ}
    settings tabs comparator :
  comparator_of (last_comparator settings) = Some comparator →
  settingsSortAutoHandler (Ok settings) tabs
    = sortTabs (Some comparator) settings tabs.
Proof. intros Hkey. unfold settingsSortAutoHandler. by rewrite Hkey. Qed.

(** ** The key of the domain comparators *)

Lemma split_nonempty sep s : split sep s ≠ [].
Proof.
  destruct s as [|c r]; simpl; [done|].
  case_decide; [done|]. by destruct (split sep r).
Qed.

Lemma split_dot_free s : dot_free s → split "." s = [s].
Proof.
  induction s as [|c r IH]; simpl; [done|].
  intros [Hc Hr]. rewrite decide_False by done. by rewrite IH.
Qed.

Lemma split_app sep s1 s2 :
  split sep (s1 +:+ String sep s2) = split sep s1 ++ split sep s2.
Proof.
  induction s1 as [|c r IH]; simpl.
  - by rewrite decide_True.
  - case_decide; [by rewrite IH|].
    rewrite IH. pose proof (split_nonempty sep r).
    by destruct (split sep r).
Qed.

Lemma slice_last_two {A} (l : list A) (x y : A) :
  slice (-2) (l ++ [x; y]) = [x; y].
Proof.
  unfold slice. rewrite length_app. cbn [length Z.ltb Z.compare].
  replace (Z.to_nat (Z.max (Z.of_nat (length l + 2) + -2) 0))
    with (length l) by lia.
  by rewrite drop_app_length.
Qed.

Lemma domain_of_three_labels prefix l1 l2 :
  dot_free l1 → dot_free l2 →
  domain_of (prefix +:+ "." +:+ l1 +:+ "." +:+ l2) = l1 +:+ "." +:+ l2.
Proof.
  intros H1 H2. unfold domain_of.
  change (prefix +:+ "." +:+ l1 +:+ "." +:+ l2)
    with (prefix +:+ String "." (l1 +:+ String "." l2)).
  rewrite !split_app, (split_dot_free l1), (split_dot_free l2) by done.
  change ([l1] ++ [l2]) with [l1; l2]. by rewrite slice_last_two.
Qed.

Lemma domain_of_two_labels l1 l2 :
  dot_free l1 → dot_free l2 →
  domain_of (l1 +:+ "." +:+ l2) = l1 +:+ "." +:+ l2.
Proof.
  intros H1 H2. unfold domain_of.
  change (l1 +:+ "." +:+ l2) with (l1 +:+ String "." l2).
  by rewrite split_app, (split_dot_free l1), (split_dot_free l2).
Qed.

Lemma domain_of_one_label l : dot_free l → domain_of l = l.
Proof. intros Hl. unfold domain_of. by rewrite split_dot_free. Qed.

(** C9 (as amended): on two tabs whose urls parse, the domain comparators
    compare the keys of the two hostnames, where the key of a hostname is
    its last two dot-separated labels joined by a dot (the whole hostname
    when it has at most two labels); "a.example.co.uk" has the key "co.uk"
    and "b.example.com" has the key "example.com". *)
Theorem domain_comparators_last_two_labels `{Host}
    (a b : Tab.t) (url1 url2 : URL) :
  parse_url (Tab.url a) = Some url1 →
  parse_url (Tab.url b) = Some url2 →
  (compareByDomainAsc a b
     = Ok (localeCompare (domain_of (hostname url1))
                         (domain_of (hostname url2))) ∧
   compareByDomainDesc a b
     = Ok (localeCompare (domain_of (hostname url2))
                         (domain_of (hostname url1)))) ∧
  (∀ prefix l1 l2, dot_free l1 → dot_free l2 →
     domain_of (prefix +:+ "." +:+ l1 +:+ "." +:+ l2) = l1 +:+ "." +:+ l2 ∧
     domain_of (l1 +:+ "." +:+ l2) = l1 +:+ "." +:+ l2 ∧
     domain_of l1 = l1) ∧
  domain_of "a.example.co.uk" = "co.uk" ∧
  domain_of "b.example.com" = "example.com".
Proof.
  intros H1 H2. split_and!; [| |  |done..].
  - unfold compareByDomainAsc, new_URL. by rewrite H1, H2.
  - unfold compareByDomainDesc, new_URL. by rewrite H1, H2.
  - intros prefix l1 l2 Hl1 Hl2.
    by rewrite domain_of_three_labels, domain_of_two_labels,
               domain_of_one_label.
Qed.

(** ** The example diff honours the contract *)

Section Sides.
Context (P : Change → Prop) `{∀ c, Decision (P c)}.

Lemma side_app s1 s2 : side P (s1 ++ s2) = side P s1 ++ side P s2.
Proof. unfold side. by rewrite filter_app, fmap_app, concat_app. Qed.

Lemma side_chunk_in a r ids :
  (∀ v, P (mkChange a r v)) → side P (LcsDiff.chunk a r ids) = ids.
Proof.
  intros HP. destruct ids as [|x ids]; [done|].
  unfold side, LcsDiff.chunk. rewrite filter_cons, decide_True by done.
  simpl. by rewrite (right_id [] (++)).
Qed.

Lemma side_chunk_out a r ids :
  (∀ v, ¬ P (mkChange a r v)) → side P (LcsDiff.chunk a r ids) = [].
Proof.
  intros HP. destruct ids as [|x ids]; [done|].
  unfold side, LcsDiff.chunk. by rewrite filter_cons, decide_False.
Qed.

Lemma side_keep z s :
  (∀ v, P (mkChange false false v)) → side P (LcsDiff.keep z s) = z :: side P s.
Proof.
  intros HP.
  assert (∀ v s', side P (mkChange false false v :: s') = v ++ side P s')
    as Hcons.
  { intros v s'. unfold side. by rewrite filter_cons, decide_True. }
  destruct s as [|[[] [] v] s']; simpl; by rewrite ?Hcons.
Qed.
End Sides.

Lemma lcs_sublist_l xs ys : LcsDiff.lcs xs ys `sublist_of` xs.
Proof.
  revert ys. induction xs as [|x xs IHx]; intros ys; simpl.
  - by destruct ys.
  - induction ys as [|y ys IHy]; [apply sublist_nil_l|].
    case_decide; [by apply sublist_skip|].
    destruct (_ <=? _)%nat; [by apply sublist_cons|done].
Qed.

Lemma lcs_sublist_r xs ys : LcsDiff.lcs xs ys `sublist_of` ys.
Proof.
  revert ys. induction xs as [|x xs IHx]; intros ys; simpl.
  - destruct ys; apply sublist_nil_l.
  - induction ys as [|y ys IHy]; [done|].
    case_decide as Hxy; [subst; by apply sublist_skip|].
    destruct (_ <=? _)%nat; [done|by apply sublist_cons].
Qed.

Lemma lcs_longest xs ys c :
  c `sublist_of` xs → c `sublist_of` ys →
  (length c ≤ length (LcsDiff.lcs xs ys))%nat.
Proof.
  revert ys c. induction xs as [|x xs IHx]; intros ys c Hx Hy.
  { apply sublist_nil_r in Hx as ->. simpl. lia. }
  revert c Hx Hy. induction ys as [|y ys IHy]; intros c Hx Hy.
  { apply sublist_nil_r in Hy as ->. simpl. lia. }
  change (LcsDiff.lcs (x :: xs) (y :: ys)) with
    (if decide (x = y) then x :: LcsDiff.lcs xs ys
     else if (length (LcsDiff.lcs (x :: xs) ys)
              <=? length (LcsDiff.lcs xs (y :: ys)))%nat
          then LcsDiff.lcs xs (y :: ys) else LcsDiff.lcs (x :: xs) ys).
  case_decide as Hxy.
  - subst y. destruct c as [|z c]; simpl; [lia|].
    assert (c `sublist_of` xs) as Hcx.
    { apply sublist_cons_r in Hx as [Hx|(c' & [= _ <-] & Hx)]; [|done].
      etrans; [|exact Hx]. by apply sublist_cons. }
    assert (c `sublist_of` ys) as Hcy.
    { apply sublist_cons_r in Hy as [Hy|(c' & [= _ <-] & Hy)]; [|done].
      etrans; [|exact Hy]. by apply sublist_cons. }
    specialize (IHx ys c Hcx Hcy). lia.
  - assert ((length c ≤ length (LcsDiff.lcs xs (y :: ys)))%nat ∨
            (length c ≤ length (LcsDiff.lcs (x :: xs) ys))%nat) as Hor.
    { apply sublist_cons_r in Hx as [Hx|(cx & -> & Hx)].
      - left. by apply IHx.
      - right. apply IHy; [by apply sublist_skip|].
        apply sublist_cons_r in Hy as [Hy|(cy & [= -> _] & _)]; done. }
    destruct (Nat.leb_spec (length (LcsDiff.lcs (x :: xs) ys))
                           (length (LcsDiff.lcs xs (y :: ys)))); lia.
Qed.

Lemma break_at_elem z l :
  z ∈ l → l = (LcsDiff.break_at z l).1 ++ z :: (LcsDiff.break_at z l).2.
Proof.
  induction l as [|x r IH]; intros Hz; simpl.
  - by apply elem_of_nil in Hz.
  - case_decide as Hx; [by subst|].
    apply elem_of_cons in Hz as [->|Hz]; [done|].
    destruct (LcsDiff.break_at z r) as [p s]. simpl in *. by rewrite <-IH.
Qed.

Lemma break_at_sublist z c l :
  z :: c `sublist_of` l → c `sublist_of` (LcsDiff.break_at z l).2.
Proof.
  induction l as [|x r IH]; intros Hc; simpl.
  - by apply sublist_nil_r in Hc.
  - apply sublist_cons_r in Hc as [Hc|(c' & [= <- <-] & Hc)].
    + case_decide.
      * etrans; [|exact Hc]. by apply sublist_cons.
      * specialize (IH Hc). by destruct (LcsDiff.break_at z r).
    + by rewrite decide_True.
Qed.

Lemma chunk_well_formed a r ids :
  a = false ∨ r = false → Forall well_formed_chunk (LcsDiff.chunk a r ids).
Proof.
  intros Hflags. destruct ids as [|x ids]; [by constructor|].
  apply Forall_singleton. by split.
Qed.

Lemma keep_well_formed z s :
  Forall well_formed_chunk s → Forall well_formed_chunk (LcsDiff.keep z s).
Proof.
  intros Hs.
  assert (∀ v, v ≠ [] → well_formed_chunk (mkChange false false v)) as Hkept
    by (intros v Hv; split; [done|by left]).
  unfold LcsDiff.keep.
  destruct Hs as [|[[] [] v] s' Hc Hs']; repeat apply Forall_cons_2;
    try done; try by apply Hkept.
Qed.

Ltac sides_of_chunks :=
  rewrite (side_chunk_in (λ c, added c = false) false true),
          (side_chunk_out (λ c, added c = false) true false),
          (side_chunk_out (λ c, removed c = false) false true),
          (side_chunk_in (λ c, removed c = false) true false),
          (side_chunk_out (λ c, added c = false ∧ removed c = false) false true),
          (side_chunk_out (λ c, added c = false ∧ removed c = false) true false)
    by (intros v; cbn [added removed]; first [done | by intros [? ?]]).

Lemma script_sides common : ∀ before after,
  common `sublist_of` before → common `sublist_of` after →
  old_side (LcsDiff.script common before after) = before ∧
  new_side (LcsDiff.script common before after) = after ∧
  common_side (LcsDiff.script common before after) = common ∧
  Forall well_formed_chunk (LcsDiff.script common before after).
Proof.
  change old_side with (side (λ c, added c = false)).
  change new_side with (side (λ c, removed c = false)).
  change common_side with (side (λ c, added c = false ∧ removed c = false)).
  induction common as [|z common IH]; intros before after Hb Ha.
  - simpl. rewrite !side_app.
    sides_of_chunks.
    rewrite !(right_id [] (++)). split_and!; [done..|].
    apply Forall_app. split; apply chunk_well_formed; auto.
  - pose proof (break_at_elem z before) as Hbe.
    pose proof (break_at_elem z after) as Hae.
    pose proof (break_at_sublist _ _ _ Hb) as Hb2.
    pose proof (break_at_sublist _ _ _ Ha) as Ha2.
    simpl.
    destruct (LcsDiff.break_at z before) as [b1 b2].
    destruct (LcsDiff.break_at z after) as [a1 a2]. simpl in *.
    destruct (IH b2 a2 Hb2 Ha2) as (Hold & Hnew & Hcommon & Hwf).
    rewrite !side_app, !side_keep by done.
    sides_of_chunks.
    rewrite Hold, Hnew, Hcommon. simpl. split_and!.
    + symmetry. apply Hbe. eapply elem_of_sublist; [|exact Hb]. by left.
    + symmetry. apply Hae. eapply elem_of_sublist; [|exact Ha]. by left.
    + done.
    + rewrite !Forall_app. split_and!;
        [apply chunk_well_formed; auto..|by apply keep_well_formed].
Qed.

Lemma lcs_diff_lcs_script before after :
  lcs_script before after (LcsDiff.lcs_diff before after).
Proof.
  destruct (script_sides (LcsDiff.lcs before after) before after)
    as (Hold & Hnew & Hcommon & Hwf);
    [apply lcs_sublist_l|apply lcs_sublist_r|].
  split; [by split|].
  intros c Hb Ha. unfold LcsDiff.lcs_diff. rewrite Hcommon.
  by apply lcs_longest.
Qed.

Lemma lcs_diff_lcs_scripts : @differ_lcs_scripts LcsDiff.lcs_diff.
Proof. intros before after. apply lcs_diff_lcs_script. Qed.

Lemma lcs_diff_edit_scripts : @differ_edit_scripts LcsDiff.lcs_diff.
Proof. intros before after. apply lcs_diff_lcs_script. Qed.

(** ** The six-tab example under every LCS-based diff *)

Lemma sublist_sublists {A} (c l : list A) :
  c `sublist_of` l → c ∈ sublists l.
Proof.
  induction 1 as [|x c l _ IH|x c l _ IH]; simpl.
  - by left.
  - apply elem_of_app. left. by apply list_elem_of_fmap_2.
  - apply elem_of_app. by right.
Qed.

Lemma sublist_is_sublist c l : c `sublist_of` l → is_sublist c l = true.
Proof.
  revert c. induction l as [|y l IH]; intros c Hc; simpl.
  - apply sublist_nil_r in Hc as ->. by apply bool_decide_eq_true.
  - destruct c as [|x c]; [done|].
    apply sublist_cons_r in Hc as [Hc|(c' & [= -> ->] & Hc)].
    + case_decide; [|by apply IH].
      apply IH. etrans; [|exact Hc]. by apply sublist_cons.
    + rewrite decide_True by done. by apply IH.
Qed.

Lemma side_cons_in (P : Change → Prop) `{∀ c, Decision (P c)} c s :
  P c → side P (c :: s) = value c ++ side P s.
Proof. intros HP. unfold side. by rewrite filter_cons, decide_True. Qed.

Lemma side_cons_out (P : Change → Prop) `{∀ c, Decision (P c)} c s :
  ¬ P c → side P (c :: s) = side P s.
Proof. intros HP. unfold side. by rewrite filter_cons, decide_False. Qed.

Lemma side_sublist (P Q : Change → Prop)
    `{∀ c, Decision (P c)} `{∀ c, Decision (Q c)} s :
  (∀ c, c ∈ s → P c → Q c) → side P s `sublist_of` side Q s.
Proof.
  induction s as [|c s IH]; intros HPQ; [done|].
  assert (side P s `sublist_of` side Q s) as IH'.
  { apply IH. intros c' Hc'. apply HPQ. by right. }
  destruct (decide (P c)) as [HP|HP].
  - rewrite (side_cons_in P), (side_cons_in Q); [|apply HPQ; [by left|done]|done].
    by apply sublist_app.
  - rewrite (side_cons_out P) by done.
    destruct (decide (Q c)).
    + rewrite (side_cons_in Q) by done. by apply sublist_inserts_l.
    + by rewrite (side_cons_out Q).
Qed.

Lemma side_Permutation (P P1 P2 : Change → Prop)
    `{∀ c, Decision (P c)} `{∀ c, Decision (P1 c)} `{∀ c, Decision (P2 c)} s :
  (∀ c, c ∈ s → (P c ↔ P1 c ∨ P2 c) ∧ ¬ (P1 c ∧ P2 c)) →
  side P s ≡ₚ side P1 s ++ side P2 s.
Proof.
  induction s as [|c s IH]; intros Hsplit; [done|].
  assert (side P s ≡ₚ side P1 s ++ side P2 s) as IH'.
  { apply IH. intros c' Hc'. apply Hsplit. by right. }
  destruct (Hsplit c) as [HP Hex]; [by left|].
  destruct (decide (P1 c)) as [Hc1|Hc1];
    destruct (decide (P2 c)) as [Hc2|Hc2].
  - destruct Hex. by split.
  - rewrite (side_cons_in P), (side_cons_in P1), (side_cons_out P2), IH';
      [|done|done|apply HP; by left].
    by rewrite (assoc (++)).
  - rewrite (side_cons_in P), (side_cons_out P1), (side_cons_in P2), IH';
      [|done|done|apply HP; by right].
    by rewrite !(assoc (++)), (comm (++) (value c)).
  - rewrite (side_cons_out P), (side_cons_out P1), (side_cons_out P2);
      [done..|]. intros HPc. apply HP in HPc. by destruct HPc.
Qed.

Lemma inserted_runs_side s :
  concat (Spec.inserted_runs s) = side (λ c, added c = true) s.
Proof. done. Qed.

Lemma common_side_sublist_old s : common_side s `sublist_of` old_side s.
Proof.
  apply (side_sublist (λ c, added c = false ∧ removed c = false)
                      (λ c, added c = false)).
  by intros c _ [? _].
Qed.

Lemma common_side_sublist_new s : common_side s `sublist_of` new_side s.
Proof.
  apply (side_sublist (λ c, added c = false ∧ removed c = false)
                      (λ c, removed c = false)).
  by intros c _ [_ ?].
Qed.

Lemma inserted_runs_sublist_new s :
  Forall well_formed_chunk s →
  concat (Spec.inserted_runs s) `sublist_of` new_side s.
Proof.
  intros Hwf. rewrite inserted_runs_side.
  apply (side_sublist (λ c, added c = true) (λ c, removed c = false)).
  intros c Hc Hadd. rewrite Forall_forall in Hwf.
  destruct (Hwf c Hc) as [_ [?|?]]; congruence.
Qed.

Lemma new_side_Permutation s :
  Forall well_formed_chunk s →
  new_side s ≡ₚ common_side s ++ concat (Spec.inserted_runs s).
Proof.
  intros Hwf. rewrite inserted_runs_side.
  apply (side_Permutation (λ c, removed c = false)
           (λ c, added c = false ∧ removed c = false) (λ c, added c = true)).
  intros c Hc. rewrite Forall_forall in Hwf. destruct (Hwf c Hc) as [_ Hflags].
  destruct (added c), (removed c); destruct Hflags; try done;
    (split; [split; [by auto|]|]); try (by intros [[? ?]|?]);
    try (by intros [[? ?] ?]).
Qed.

Lemma concat_nonempty_nil (runs : list (list Z)) :
  Forall (λ r, r ≠ []) runs → concat runs = [] → runs = [].
Proof.
  destruct 1 as [|r rs Hr _]; [done|].
  simpl. by destruct r.
Qed.

Lemma concat_nonempty_two (runs : list (list Z)) x y :
  Forall (λ r, r ≠ []) runs → concat runs = [x; y] →
  runs = [[x; y]] ∨ runs = [[x]; [y]].
Proof.
  destruct 1 as [|r1 rs Hr1 Hrs]; [done|].
  destruct r1 as [|z [|z' r1]]; [done|..]; simpl.
  - intros [= -> Hy]. right. f_equal.
    destruct Hrs as [|r2 rs Hr2 Hrs]; [done|].
    destruct r2 as [|z [|z' r2]]; [done|..]; simplify_eq/=.
    by rewrite (concat_nonempty_nil rs).
  - intros [= -> -> Hnil]. left.
    apply app_eq_nil in Hnil as [-> Hnil].
    by rewrite (concat_nonempty_nil rs).
Qed.

(** Whatever diff library is used, as long as its script for the six tabs
    keeps a longest common subsequence, the pass leaves [currentIds] in one
    of two orders, neither of which is the sorted one: the one reached when
    the two inserted ids form one run, or the one reached when they form
    two. *)
Lemma six_tabs_final_for_every_lcs_diff `{Differ} st :
  lcs_script [1; 2; 3; 4; 5; 6] [3; 4; 5; 1; 2; 6]
             (diff [1; 2; 3; 4; 5; 6] [3; 4; 5; 1; 2; 6]) →
  sortTabsInternal Examples.six_tabs (Some compareByLastAccessAsc) = Ok st →
  st = mkState [3; 4; 5; 6; 1; 2] [mkMove [1; 2] 4] ∨
  st = mkState [1; 3; 4; 5; 2; 6] [mkMove [1] 0; mkMove [2] 4].
Proof.
  set (b := [1; 2; 3; 4; 5; 6]). set (a := [3; 4; 5; 1; 2; 6]).
  intros [Hscript Hmax] Hrun.
  pose proof Hscript as [Hold Hnew Hwf].
  (* the common subsequence kept *)
  assert (common_side (diff b a) = [3; 4; 5; 6]) as Hcommon.
  { pose proof (common_side_sublist_old (diff b a)) as Hb.
    pose proof (common_side_sublist_new (diff b a)) as Ha.
    rewrite Hold in Hb. rewrite Hnew in Ha.
    assert (4 ≤ length (common_side (diff b a)))%nat as Hlen.
    { apply (Hmax [3; 4; 5; 6]);
        by repeat first [apply sublist_skip | apply sublist_cons]. }
    apply sublist_sublists in Hb. apply sublist_is_sublist in Ha.
    revert Hb Ha Hlen. generalize (common_side (diff b a)). intros c Hc.
    assert (Forall (λ c, is_sublist c a = true → (4 ≤ length c)%nat →
                         c = [3; 4; 5; 6]) (sublists b)) as Hall.
    { apply (bool_decide_unpack _). by vm_compute. }
    rewrite Forall_forall in Hall. by apply Hall. }
  (* the inserted runs *)
  assert (concat (Spec.inserted_runs (diff b a)) = [1; 2]) as Hconcat.
  { pose proof (new_side_Permutation _ Hwf) as Hperm.
    pose proof (inserted_runs_sublist_new _ Hwf) as Hsub.
    rewrite Hnew in Hperm, Hsub. rewrite Hcommon in Hperm.
    assert (a ≡ₚ [3; 4; 5; 6] ++ [1; 2]) as Ha
      by (apply (bool_decide_unpack _); by vm_compute).
    assert ([3; 4; 5; 6] ++ [1; 2]
            ≡ₚ [3; 4; 5; 6] ++ concat (Spec.inserted_runs (diff b a)))
      as Hperm' by (etrans; [symmetry; exact Ha|exact Hperm]).
    apply (inj ([3; 4; 5; 6] ++.)) in Hperm'.
    apply Permutation_length_2_inv in Hperm' as [Hruns|Hruns]; [done|].
    rewrite Hruns in Hsub. by apply sublist_is_sublist in Hsub. }
  assert (Forall (λ r, r ≠ []) (Spec.inserted_runs (diff b a))) as Hne.
  { apply Forall_forall. intros r Hr. unfold Spec.inserted_runs in Hr.
    apply list_elem_of_fmap in Hr as (c & -> & Hc).
    apply list_elem_of_filter in Hc as [_ Hc].
    rewrite Forall_forall in Hwf. by destruct (Hwf c Hc). }
  (* the pass *)
  destruct (sortTabsInternal_pass Examples.six_tabs
              (Some compareByLastAccessAsc) Examples.six_tabs_sorted)
    as (ops & final & Hrun' & Hpass & _).
  { apply (bool_decide_unpack _). by vm_compute. }
  { by vm_compute. }
  { exact Hscript. }
  rewrite Hrun in Hrun'. injection Hrun' as ->.
  change (Tab.id <$> Examples.six_tabs) with b in Hpass.
  change (Tab.id <$> Examples.six_tabs_sorted) with a in Hpass.
  destruct (concat_nonempty_two _ _ _ Hne Hconcat) as [Hruns|Hruns];
    rewrite Hruns in Hpass; vm_compute in Hpass; injection Hpass as <- <-;
    [by left|by right].
Qed.

(** * The claims that the script does not meet, on concrete input

    The passes of this section run with the diff of [LcsDiff]. *)

Section Divergences.
Import Examples.
Local Existing Instance LcsDiff.lcs_diff.

(** C1: the final [currentIds] is meant to equal [afterIds].  On six tabs
    with ids 1 to 6 whose last-access order is 3, 4, 5, 1, 2, 6 the diff
    has one inserted run, [1; 2], in front of the anchor 6; the anchor is at
    position 5, the run's first id is before it, so the destination is 4;
    with the two ids taken out the anchor is at position 3, and the splice
    at 4 puts the run behind it: [currentIds] ends as 3, 4, 5, 6, 1, 2. *)
Theorem sortTabsInternal_final_order_differs :
  afterIds_of six_tabs (Some compareByLastAccessAsc)
    = Ok [3; 4; 5; 1; 2; 6] ∧
  LcsDiff.lcs_diff [1; 2; 3; 4; 5; 6] [3; 4; 5; 1; 2; 6] =
    [ mkChange false true [1; 2]; mkChange false false [3; 4; 5];
      mkChange true false [1; 2]; mkChange false false [6] ] ∧
  sortTabsInternal six_tabs (Some compareByLastAccessAsc) =
    Ok (mkState [3; 4; 5; 6; 1; 2] [mkMove [1; 2] 4]).
Proof. by vm_compute. Qed.

(** On the six tabs the host, which puts the two moved tabs side by side
    behind tab 5, ends with the strip in last-access order although
    [currentIds] does not, and a second run requests nothing. *)
Lemma six_tabs_second_run_requests_nothing :
  sortTabs (Some compareByLastAccessAsc) default_settings six_tabs
    = mkRun [tabs_query; tabs_move (mkMove [1; 2] 4)] (Ok ()) ∧
  Tab.id <$> TabStrip.after six_tabs
    (sortTabs (Some compareByLastAccessAsc) default_settings six_tabs)
    = [3; 4; 5; 1; 2; 6] ∧
  sortTabs (Some compareByLastAccessAsc) default_settings
    (TabStrip.after six_tabs
       (sortTabs (Some compareByLastAccessAsc) default_settings six_tabs))
    = mkRun [tabs_query] (Ok ()).
Proof. by vm_compute. Qed.

(** C4: a second run over the order the first run produced is meant to
    request no move.  On eight tabs in the order 5, 4, 3, 1, 7, 2, 6, 8,
    to be sorted by last access into 1 to 8, the diff has the inserted runs
    [3; 4; 5] in front of 6 and [7] in front of 8.  The first move, of
    [3; 4; 5] to 5, leaves the strip as 1, 7, 2, 3, 4, 5, 6, 8, but
    [currentIds] as 1, 7, 2, 6, 8, 3, 4, 5.  The destination of [7] is read
    off [currentIds], where the anchor 8 is at 4 and not at 7 as in the
    strip: tab 7 is moved to 3 and the first run leaves the strip as
    1, 2, 3, 7, 4, 5, 6, 8.  The second run, on the tabs as the host then
    answers them, requests the move of tab 7 to 6. *)
Theorem sortTabs_second_run_moves :
  afterIds_of eight_tabs (Some compareByLastAccessAsc)
    = Ok [1; 2; 3; 4; 5; 6; 7; 8] ∧
  sortTabsInternal eight_tabs (Some compareByLastAccessAsc)
    = Ok (mkState [1; 2; 6; 7; 8; 3; 4; 5]
            [mkMove [3; 4; 5] 5; mkMove [7] 3]) ∧
  sortTabs (Some compareByLastAccessAsc) default_settings eight_tabs
    = mkRun [tabs_query; tabs_move (mkMove [3; 4; 5] 5);
             tabs_move (mkMove [7] 3)] (Ok ()) ∧
  Tab.id <$> TabStrip.move eight_tabs (mkMove [3; 4; 5] 5)
    = [1; 7; 2; 3; 4; 5; 6; 8] ∧
  Tab.id <$> TabStrip.after eight_tabs
    (sortTabs (Some compareByLastAccessAsc) default_settings eight_tabs)
    = [1; 2; 3; 7; 4; 5; 6; 8] ∧
  afterIds_of
    (TabStrip.after eight_tabs
       (sortTabs (Some compareByLastAccessAsc) default_settings eight_tabs))
    (Some compareByLastAccessAsc)
    = Ok [1; 2; 3; 4; 5; 6; 7; 8] ∧
  sortTabs (Some compareByLastAccessAsc) default_settings
    (TabStrip.after eight_tabs
       (sortTabs (Some compareByLastAccessAsc) default_settings eight_tabs))
    = mkRun [tabs_query; tabs_move (mkMove [7] 6)] (Ok ()).
Proof. by vm_compute. Qed.

(** C5: a pass invoked with a key that has no comparator is meant not to
    start, and the caller is meant to be told.  [sortTabsComparatorName]
    hands the missing comparator to [sortTabs], which queries the tabs and
    sorts them with the host's default order; the only host call is the
    query, nothing is written to the console, and the promise is
    fulfilled. *)
Theorem sortTabsComparatorName_unknown_key_runs `{Host} :
  menuIdToComparator !! "sort-by-foo" = None ∧
  sortTabsComparatorName "sort-by-foo" default_settings six_tabs
    = mkRun [tabs_query] (Ok ()).
Proof. by vm_compute. Qed.

(** C7: when the stored last comparator has no entry in the table (it is
    unset until the first manual sort) the handler is meant to skip the
    pass, emit a diagnostic and raise nothing.
    It calls [console.warning], which is not a method of the console: no
    host call is made at all, nothing is written, and the exception rejects
    the promise of the handler's callback. *)
Theorem settingsSortAutoHandler_skip_path_throws `{Host} (tabs : list Tab.t) :
  ("warning" ∉ console_methods) ∧
  settingsSortAutoHandler (Ok (mkSettings None true false)) tabs
    = mkRun [] (Throw (TypeError "console.warning is not a function")) ∧
  settingsSortAutoHandler (Ok (mkSettings (Some "sort-by-foo") true false)) tabs
    = mkRun [] (Throw (TypeError "console.warning is not a function")).
Proof. split; [by apply (bool_decide_unpack _)|]. by vm_compute. Qed.
End Divergences.

(** * The claims on concrete input *)

Section Concrete.
Import Examples.
Local Existing Instance LcsDiff.lcs_diff.
Local Existing Instance ExampleHost.host.

(** A partition of one tab whose url does not parse: the sort never calls
    the comparator and the pass returns, having requested no move. *)
Lemma single_malformed_tab_pass_returns :
  compareByUrlAsc ∈ url_comparators ∧
  parse_url (Tab.url broken_tab) = None ∧
  sortTabsInternal [broken_tab] (Some compareByUrlAsc)
    = Ok (mkState [7] []).
Proof. split; [by left|]. by vm_compute. Qed.

(** The key of "b.example.com" is not "com": the ascending domain
    comparator tells it from another host under "com". *)
Lemma domain_key_is_not_top_level_label :
  domain_of "b.example.com" ≠ "com" ∧
  domain_of "c.other.com" ≠ "com" ∧
  compareByDomainAsc com_tab other_com_tab = Ok (-1).
Proof. by vm_compute. Qed.

Lemma sortTabsInternal_destination_as_specified_witness :
  ∃ st, sortTabsInternal six_tabs (Some compareByLastAccessAsc) = Ok st ∧
        Spec.pass [1; 2; 3; 4; 5; 6] [3; 4; 5; 1; 2; 6] 0 [1; 2; 3; 4; 5; 6]
                  [[1; 2]] = Some (issued st, currentIds st).
Proof.
  assert (NoDup (Tab.id <$> six_tabs)) as Hids.
  { apply (bool_decide_unpack _). vm_compute. exact I. }
  assert (Array_sort six_tabs (Some compareByLastAccessAsc)
          = Ok six_tabs_sorted) as Hsort.
  { vm_compute. reflexivity. }
  exact (sortTabsInternal_destination_as_specified six_tabs six_tabs_sorted
           (Some compareByLastAccessAsc) Hids Hsort
           (lcs_diff_edit_scripts _ _)).
Defined.

Lemma sortTabs_partition_isolation_witness :
  (settings_sort_pinned default_settings = false →
   ∀ tab, tab ∈ mixed_tabs → Tab.pinned tab = true →
          Tab.id tab ∉ movingIds (mkMove [22; 23] 4)) ∧
  (∃ partition,
     (partition = filter (λ tab, Tab.pinned tab = true) mixed_tabs ∨
      partition = filter (λ tab, Tab.pinned tab ≠ true) mixed_tabs) ∧
     (∀ x, x ∈ movingIds (mkMove [22; 23] 4) → x ∈ Tab.id <$> partition) ∧
     Spec.in_partition_range partition (index (mkMove [22; 23] 4))).
Proof.
  apply (sortTabs_partition_isolation (Some compareByTitleAsc)
           default_settings mixed_tabs (mkMove [22; 23] 4)).
  - apply lcs_diff_edit_scripts.
  - apply (bool_decide_unpack _). vm_compute. exact I.
  - apply (bool_decide_unpack _). vm_compute. exact I.
Defined.

Lemma malformed_url_aborts_pass_witness :
  (∀ other,
     compareByUrlAsc broken_tab other = Throw (TypeError "Invalid URL") ∧
     compareByUrlAsc other broken_tab = Throw (TypeError "Invalid URL")) ∧
  sortTabsInternal [uk_tab; broken_tab] (Some compareByUrlAsc)
    = Throw (TypeError "Invalid URL") ∧
  settled (sortTabs (Some compareByUrlAsc) default_settings
             [uk_tab; broken_tab])
    = Throw (TypeError "Invalid URL") ∧
  is_Ok (sortTabsInternal [broken_tab] (Some compareByUrlAsc)) ∧
  sortTabsInternal [broken_tab] (Some compareByUrlAsc) = Ok (mkState [7] []).
Proof.
  destruct (malformed_url_aborts_pass compareByUrlAsc [uk_tab; broken_tab]
              broken_tab) as (Hcalls & Hpass & Hrun & _);
    [by left|by right; left|reflexivity|].
  destruct (malformed_url_aborts_pass compareByUrlAsc [broken_tab]
              broken_tab) as (_ & _ & _ & Hone);
    [by left|by left|reflexivity|].
  destruct (Hone eq_refl) as [Hreturns Hmoves].
  split_and!.
  - exact Hcalls.
  - apply Hpass. simpl. lia.
  - apply (Hrun default_settings [uk_tab; broken_tab]); [reflexivity|].
    simpl. lia.
  - exact Hreturns.
  - apply Hmoves. apply lcs_diff_lcs_script.
Defined.

Lemma sort_stable_no_moves_when_equal_witness :
  [tab 42 "https://mail.example.org/" "inbox" 1 false 1;
   tab 43 "https://mail.example.org/2" "inbox" 2 false 2]
    `sublist_of` same_title_tabs ∧
  sortTabsInternal same_title_tabs (Some compareByTitleAsc)
    = Ok (mkState [41; 42; 43] []) ∧
  sortTabsInternal same_title_tabs (Some compareByTitleDesc)
    = Ok (mkState [41; 42; 43] []).
Proof.
  destruct sort_stable_no_moves_when_equal as (Hstable & Hequal & Htitle).
  split.
  - apply (Hstable same_title_tabs (Some compareByTitleAsc)).
    + vm_compute. reflexivity.
    + apply sublist_cons. reflexivity.
    + reflexivity.
  - apply (Htitle same_title_tabs "inbox").
    + apply lcs_diff_lcs_scripts.
    + reflexivity.
    + intros x Hx.
      repeat (apply elem_of_cons in Hx as [->|Hx]; [reflexivity|]).
      by apply elem_of_nil in Hx.
Defined.

Lemma domain_comparators_last_two_labels_witness :
  (compareByDomainAsc uk_tab com_tab
     = Ok (localeCompare (domain_of "a.example.co.uk")
                         (domain_of "b.example.com")) ∧
   compareByDomainDesc uk_tab com_tab
     = Ok (localeCompare (domain_of "b.example.com")
                         (domain_of "a.example.co.uk"))) ∧
  (∀ prefix l1 l2, dot_free l1 → dot_free l2 →
     domain_of (prefix +:+ "." +:+ l1 +:+ "." +:+ l2) = l1 +:+ "." +:+ l2 ∧
     domain_of (l1 +:+ "." +:+ l2) = l1 +:+ "." +:+ l2 ∧
     domain_of l1 = l1) ∧
  domain_of "a.example.co.uk" = "co.uk" ∧
  domain_of "b.example.com" = "example.com".
Proof.
  apply (domain_comparators_last_two_labels uk_tab com_tab
           {| hostname := "a.example.co.uk" |}
           {| hostname := "b.example.com" |}); reflexivity.
Defined.

Lemma field_comparators_ignore_url_witness :
  compareByTitleAsc (tab 41 "not a url" "inbox" 3 false 0) uk_tab
    = compareByTitleAsc (tab 42 "https://mail.example.org/" "inbox" 1 false 1)
                        uk_tab ∧
  compareByLastAccessDesc broken_tab uk_tab
    = compareByLastAccessDesc (tab 8 "https://ok.example.org/" "ok" 0 false 9)
                              uk_tab ∧
  is_Ok (sortTabsInternal same_title_tabs (Some compareByLastAccessAsc)) ∧
  settled (sortTabs (Some compareByTitleDesc) default_settings same_title_tabs)
    = Ok ().
Proof.
  destruct field_comparators_ignore_url as (Htitle & Haccess & Hpass).
  split_and!.
  - apply Htitle; reflexivity.
  - apply Haccess; reflexivity.
  - apply (Hpass compareByLastAccessAsc same_title_tabs default_settings).
    by right; right; left.
  - apply (Hpass compareByTitleDesc same_title_tabs default_settings).
    by right; left.
Defined.
End Concrete.

(** * Further properties of the reordering pass *)

Lemma foldl_loop_body_movingIds b a off s : ∀ st,
  movingIds <$> issued (foldl (loop_body b a off) st s)
  = (movingIds <$> issued st) ++ Spec.inserted_runs s.
Proof.
  induction s as [|c s IH]; intros st.
  { simpl. by rewrite (right_id [] (++)). }
  cbn [foldl]. rewrite IH. destruct (added c) eqn:Hadd.
  - rewrite inserted_runs_added by done.
    unfold loop_body. rewrite Hadd. cbn [negb issued].
    by rewrite fmap_app, <-(assoc (++)).
  - by rewrite inserted_runs_not_added, loop_body_not_added.
Qed.

Lemma sortTabsInternal_nonempty `{Differ} tabs comparator st :
  tabs ≠ [] →
  sortTabsInternal tabs comparator = Ok st →
  ∃ sorted,
    Array_sort tabs comparator = Ok sorted ∧
    st = foldl (loop_body (Tab.id <$> tabs) (Tab.id <$> sorted)
                          (Spec.offset tabs))
               (mkState (Tab.id <$> tabs) [])
               (diff (Tab.id <$> tabs) (Tab.id <$> sorted)).
Proof.
  destruct tabs as [|tab0 tabs']; [done|]. intros _.
  unfold sortTabsInternal. cbv zeta.
  destruct (Array_sort (tab0 :: tabs') comparator) as [sorted|]; [|done].
  intros [= <-]. by exists sorted.
Qed.

Lemma length_concat_nonempty (runs : list (list Z)) :
  Forall (λ r, r ≠ []) runs → (length runs ≤ length (concat runs))%nat.
Proof.
  induction 1 as [|r rs Hr _ IH]; [done|].
  simpl. rewrite length_app. destruct r; [done|]. simpl. lia.
Qed.

(** X1: with distinct ids and a diff that returns edit scripts, a pass that
    returns leaves in [currentIds] a permutation of the ids it started from:
    no id is lost, none is added, none is doubled. *)
Theorem sortTabsInternal_permutes_ids `{Differ}
    (tabs : list Tab.t) (comparator : option Comparator) (st : loop_state) :
  differ_edit_scripts →
  NoDup (Tab.id <$> tabs) →
  sortTabsInternal tabs comparator = Ok st →
  currentIds st ≡ₚ Tab.id <$> tabs ∧ NoDup (currentIds st).
Proof.
  intros Hdiff Hnd Hrun.
  destruct (sortTabsInternal_sorted _ _ _ Hrun) as [sorted Hsort].
  destruct (sortTabsInternal_pass tabs comparator sorted Hnd Hsort (Hdiff _ _))
    as (ops & final & Hrun' & _ & Hperm & _).
  rewrite Hrun in Hrun'. injection Hrun' as ->. simpl.
  split; [done|]. by rewrite Hperm.
Qed.

(** X2: a pass over a non-empty partition requests exactly one move per
    added chunk of the diff between the ids before and after sorting, in
    the order of the script, and each move carries the ids of its chunk;
    removed and common chunks cause no host call. *)
Theorem sortTabsInternal_one_move_per_run `{Differ}
    (tabs : list Tab.t) (comparator : option Comparator) (st : loop_state) :
  tabs ≠ [] →
  sortTabsInternal tabs comparator = Ok st →
  ∃ sorted,
    Array_sort tabs comparator = Ok sorted ∧
    movingIds <$> issued st
    = value <$> filter (λ c, added c = true)
                       (diff (Tab.id <$> tabs) (Tab.id <$> sorted)).
Proof.
  intros Hne Hrun.
  destruct (sortTabsInternal_nonempty _ _ _ Hne Hrun) as (sorted & Hsort & ->).
  exists sorted. split; [done|]. by rewrite foldl_loop_body_movingIds.
Qed.

(** X3: with a diff that returns edit scripts, the number of moves a pass
    requests plus the number of ids the diff keeps in place is at most the
    number of tabs: ids of the common subsequence are never moved, and
    every move relocates at least one other id. *)
Theorem sortTabsInternal_moves_bounded `{Differ}
    (tabs sorted : list Tab.t) (comparator : option Comparator)
    (st : loop_state) :
  differ_edit_scripts →
  Array_sort tabs comparator = Ok sorted →
  sortTabsInternal tabs comparator = Ok st →
  (length (issued st)
   + length (common_side (diff (Tab.id <$> tabs) (Tab.id <$> sorted)))
   ≤ length tabs)%nat.
Proof.
  intros Hdiff Hsort Hrun.
  destruct tabs as [|tab0 tabs'].
  { injection Hrun as <-. injection Hsort as <-. simpl.
    pose proof (common_side_sublist_new (diff [] [])) as Hsub.
    destruct (Hdiff [] []) as [_ Hnew _]. rewrite Hnew in Hsub.
    apply sublist_nil_r in Hsub. rewrite Hsub. done. }
  destruct (sortTabsInternal_nonempty (tab0 :: tabs') comparator st)
    as (sorted' & Hsort' & ->); [done..|].
  rewrite Hsort in Hsort'. injection Hsort' as <-.
  set (s := diff (Tab.id <$> tab0 :: tabs') (Tab.id <$> sorted)).
  destruct (Hdiff (Tab.id <$> tab0 :: tabs') (Tab.id <$> sorted))
    as [_ Hnew Hwf]. fold s in Hnew, Hwf.
  pose proof (new_side_length s Hwf) as Hlen.
  rewrite Hnew, length_fmap in Hlen.
  rewrite (Permutation_length (Array_sort_Permutation _ _ _ Hsort)) in Hlen.
  assert (length (Spec.inserted_runs s)
          ≤ length (concat (Spec.inserted_runs s)))%nat as Hruns.
  { assert (Forall (λ r, r ≠ []) (Spec.inserted_runs s)) as Hne.
    { apply Forall_forall. intros r Hr. unfold Spec.inserted_runs in Hr.
      apply list_elem_of_fmap in Hr as (c & -> & Hc).
      apply list_elem_of_filter in Hc as [_ Hc].
      rewrite Forall_forall in Hwf. by destruct (Hwf c Hc). }
    by apply length_concat_nonempty. }
  assert (length (issued (foldl (loop_body (Tab.id <$> tab0 :: tabs')
            (Tab.id <$> sorted) (Spec.offset (tab0 :: tabs')))
            (mkState (Tab.id <$> tab0 :: tabs') []) s))
          = length (Spec.inserted_runs s)) as Hops.
  { rewrite <-(length_fmap movingIds), foldl_loop_body_movingIds. done. }
  rewrite Hops. lia.
Qed.

(** X4: when every tab of a partition compares [<= 0] with the tab after it
    and the diff keeps a longest common subsequence, the pass returns
    without requesting any move and [currentIds] is the order it started
    from. *)
Theorem sortTabsInternal_in_order_no_move `{Differ}
    (tabs : list Tab.t) (comparator : option Comparator) :
  in_order (SortCompare comparator) tabs →
  lcs_script (Tab.id <$> tabs) (Tab.id <$> tabs)
             (diff (Tab.id <$> tabs) (Tab.id <$> tabs)) →
  sortTabsInternal tabs comparator = Ok (mkState (Tab.id <$> tabs) []).
Proof. apply sortTabsInternal_in_order. Qed.

(** X5: a partition of a single tab is never handed to the comparator: with
    a diff that keeps a longest common subsequence the pass returns and
    requests no move, whatever the comparator does, a comparator that
    throws on every call included. *)
Theorem sortTabsInternal_single_tab `{Differ}
    (tab : Tab.t) (comparator : option Comparator) :
  lcs_script [Tab.id tab] [Tab.id tab] (diff [Tab.id tab] [Tab.id tab]) →
  sortTabsInternal [tab] comparator = Ok (mkState [Tab.id tab] []).
Proof. intros Hdiff. by apply (sortTabsInternal_in_order [tab]). Qed.
(** ** The host's strip *)

Lemma moveTabTo_Permutation strip from to :
  TabStrip.moveTabTo strip from to ≡ₚ strip.
Proof.
  unfold TabStrip.moveTabTo. destruct (strip !! from) as [tab|] eqn:Hfrom;
    [|done].
  cbv zeta. rewrite <-Permutation_middle, take_drop.
  symmetry. by apply delete_Permutation.
Qed.

Lemma move_one_Permutation index st id :
  (TabStrip.move_one index st id).1 ≡ₚ st.1.
Proof.
  destruct st as [strip lastInsertion]. unfold TabStrip.move_one.
  destruct (TabStrip.position strip id) as [from|]; [|done].
  case_bool_decide; [done|]. cbv zeta.
  match goal with |- context [if ?c then (?x, ?y) else _] =>
    destruct c; [apply moveTabTo_Permutation|done] end.
Qed.

(** The host moves tabs about and neither drops nor doubles one. *)
Lemma TabStrip_move_Permutation strip m : TabStrip.move strip m ≡ₚ strip.
Proof.
  unfold TabStrip.move. destruct (forallb _ _); [|done].
  generalize (@None nat). revert strip.
  induction (movingIds m) as [|id ids IH]; intros strip lastInsertion; [done|].
  cbn [foldl].
  pose proof (move_one_Permutation (index m) (strip, lastInsertion) id) as Hone.
  destruct (TabStrip.move_one (index m) (strip, lastInsertion) id)
    as [strip' lastInsertion'].
  by rewrite IH.
Qed.

(** ** The eight-tab example under every LCS-based diff *)

Lemma sublist_same_length {A} (l1 l2 : list A) :
  l1 `sublist_of` l2 → (length l2 ≤ length l1)%nat → l1 = l2.
Proof.
  induction 1 as [|x l1 l2 _ IH|x l1 l2 Hsub _]; simpl; intros Hlen.
  - done.
  - f_equal. apply IH. lia.
  - apply sublist_length in Hsub. lia.
Qed.

Lemma compositions_cons_run {A} (run : list A) (runs : list (list A)) l :
  run ≠ [] → runs ∈ compositions l → run :: runs ∈ compositions (run ++ l).
Proof.
  intros Hne Hruns. induction run as [|x [|y run] IH]; [done|..].
  - simpl. apply list_elem_of_bind. exists runs. split; [|done].
    destruct runs; [by left|by left].
  - change ((x :: y :: run) ++ l) with (x :: ((y :: run) ++ l)).
    cbn [compositions]. apply list_elem_of_bind.
    exists ((y :: run) :: runs). split; [|by apply IH].
    right. by left.
Qed.

Lemma compositions_concat {A} (runs : list (list A)) :
  Forall (λ r, r ≠ []) runs → runs ∈ compositions (concat runs).
Proof.
  induction 1 as [|run runs Hne _ IH]; [by left|].
  simpl. by apply compositions_cons_run.
Qed.

Lemma inserted_runs_nonempty s :
  Forall well_formed_chunk s → Forall (λ r, r ≠ []) (Spec.inserted_runs s).
Proof.
  intros Hwf. apply Forall_forall. intros r Hr. unfold Spec.inserted_runs in Hr.
  apply list_elem_of_fmap in Hr as (c & -> & Hc).
  apply list_elem_of_filter in Hc as [_ Hc].
  rewrite Forall_forall in Hwf. by destruct (Hwf c Hc).
Qed.

(** An edit script between two different arrangements of the same ids has
    an inserted run. *)
Lemma edit_script_inserted_runs before after s :
  edit_script before after s → before ≡ₚ after → before ≠ after →
  Spec.inserted_runs s ≠ [].
Proof.
  intros [Hold Hnew Hwf] Hperm Hneq Hruns.
  pose proof (new_side_Permutation s Hwf) as Hsplit.
  rewrite Hruns, Hnew in Hsplit. simpl in Hsplit. rewrite app_nil_r in Hsplit.
  pose proof (common_side_sublist_old s) as Hb.
  pose proof (common_side_sublist_new s) as Ha.
  rewrite Hold in Hb. rewrite Hnew in Ha.
  apply Permutation_length in Hsplit, Hperm.
  apply sublist_same_length in Hb; [|lia].
  apply sublist_same_length in Ha; [|lia].
  congruence.
Qed.

(** A pass over tabs that are not in the comparator's order requests at
    least one move. *)
Lemma sortTabsInternal_out_of_order `{Differ} tabs comparator sorted :
  Array_sort tabs comparator = Ok sorted →
  Tab.id <$> tabs ≠ Tab.id <$> sorted →
  edit_script (Tab.id <$> tabs) (Tab.id <$> sorted)
              (diff (Tab.id <$> tabs) (Tab.id <$> sorted)) →
  ∃ st, sortTabsInternal tabs comparator = Ok st ∧ issued st ≠ [].
Proof.
  intros Hsort Hneq Hscript.
  destruct (sortTabsInternal_total tabs comparator) as [st Hst];
    [by eexists|].
  exists st. split; [done|].
  assert (tabs ≠ []) as Hne.
  { intros ->. apply Array_sort_Permutation in Hsort.
    apply Permutation_nil_r in Hsort as ->. done. }
  destruct (sortTabsInternal_nonempty tabs comparator st Hne Hst)
    as (sorted' & Hsort' & ->).
  rewrite Hsort in Hsort'. injection Hsort' as <-.
  intros Hissued.
  apply (edit_script_inserted_runs _ _ _ Hscript); [|done|].
  - apply fmap_Permutation. symmetry. by eapply Array_sort_Permutation.
  - pose proof (foldl_loop_body_movingIds (Tab.id <$> tabs) (Tab.id <$> sorted)
                  (Spec.offset tabs)
                  (diff (Tab.id <$> tabs) (Tab.id <$> sorted))
                  (mkState (Tab.id <$> tabs) [])) as Hmoves.
    rewrite Hissued in Hmoves. by symmetry.
Qed.

Lemma sortTabs_normal_tabs_only `{Differ} comparator settings tabs st :
  settings_sort_pinned settings = false →
  filter (λ tab, Tab.pinned tab ≠ true) tabs = tabs →
  sortTabsInternal tabs comparator = Ok st →
  sortTabs comparator settings tabs
    = mkRun (tabs_query :: (tabs_move <$> issued st)) (Ok ()).
Proof.
  intros Hoff Hnormal Hpass. unfold sortTabs.
  by rewrite Hoff, Hnormal, Hpass.
Qed.

(** Whatever diff library is used, as long as its scripts keep a longest
    common subsequence, the first run on the eight tabs leaves the strip of
    the host out of last-access order, and the second run requests a
    move. *)
Lemma eight_tabs_second_run_for_every_lcs_diff `{Differ} :
  differ_lcs_scripts →
  Tab.id <$> TabStrip.after Examples.eight_tabs
    (sortTabs (Some compareByLastAccessAsc) Examples.default_settings
       Examples.eight_tabs)
    ≠ [1; 2; 3; 4; 5; 6; 7; 8] ∧
  ∃ m, tabs_move m ∈
    trace (sortTabs (Some compareByLastAccessAsc) Examples.default_settings
             (TabStrip.after Examples.eight_tabs
                (sortTabs (Some compareByLastAccessAsc)
                   Examples.default_settings Examples.eight_tabs))).
Proof.
  set (b := [5; 4; 3; 1; 7; 2; 6; 8]). set (a := [1; 2; 3; 4; 5; 6; 7; 8]).
  intros Hdiff. destruct (Hdiff b a) as [Hscript Hmax].
  pose proof Hscript as [Hold Hnew Hwf].
  (* the common subsequence kept *)
  assert (common_side (diff b a) = [1; 2; 6; 8]) as Hcommon.
  { pose proof (common_side_sublist_old (diff b a)) as Hb.
    pose proof (common_side_sublist_new (diff b a)) as Ha.
    rewrite Hold in Hb. rewrite Hnew in Ha.
    assert (4 ≤ length (common_side (diff b a)))%nat as Hlen.
    { apply (Hmax [1; 2; 6; 8]);
        by repeat first [apply sublist_skip | apply sublist_cons]. }
    apply sublist_sublists in Hb. apply sublist_is_sublist in Ha.
    revert Hb Ha Hlen. generalize (common_side (diff b a)). intros c Hc.
    assert (Forall (λ c, is_sublist c a = true → (4 ≤ length c)%nat →
                         c = [1; 2; 6; 8]) (sublists b)) as Hall.
    { apply (bool_decide_unpack _). by vm_compute. }
    rewrite Forall_forall in Hall. by apply Hall. }
  (* the inserted runs *)
  assert (concat (Spec.inserted_runs (diff b a)) = [3; 4; 5; 7]) as Hconcat.
  { pose proof (new_side_Permutation _ Hwf) as Hperm.
    pose proof (inserted_runs_sublist_new _ Hwf) as Hsub.
    rewrite Hnew in Hperm, Hsub. rewrite Hcommon in Hperm.
    apply sublist_sublists in Hsub.
    revert Hsub Hperm. generalize (concat (Spec.inserted_runs (diff b a))).
    intros c Hc.
    assert (Forall (λ c, a ≡ₚ [1; 2; 6; 8] ++ c → c = [3; 4; 5; 7])
                   (sublists a)) as Hall.
    { apply (bool_decide_unpack _). by vm_compute. }
    rewrite Forall_forall in Hall. by apply Hall. }
  pose proof (compositions_concat _ (inserted_runs_nonempty _ Hwf)) as Hruns.
  rewrite Hconcat in Hruns.
  (* the first pass *)
  assert (∃ sorted, Array_sort Examples.eight_tabs (Some compareByLastAccessAsc)
                      = Ok sorted ∧ Tab.id <$> sorted = a)
    as (sorted & Hsort & Hids).
  { eexists. split; by vm_compute. }
  destruct (sortTabsInternal_pass Examples.eight_tabs
              (Some compareByLastAccessAsc) sorted)
    as (ops & final & Hrun & Hpass & _).
  { apply (bool_decide_unpack _). by vm_compute. }
  { done. }
  { rewrite Hids. exact Hscript. }
  rewrite Hids in Hpass.
  change (Tab.id <$> Examples.eight_tabs) with b in Hpass.
  rewrite (sortTabs_normal_tabs_only (Some compareByLastAccessAsc)
             Examples.default_settings Examples.eight_tabs _
             eq_refl eq_refl Hrun).
  cbn [issued].
  assert (∀ strip : list Tab.t,
    Tab.id <$> strip ≠ a →
    filter (λ tab, Tab.pinned tab ≠ true) strip = strip →
    (∃ sorted', Array_sort strip (Some compareByLastAccessAsc) = Ok sorted' ∧
                Tab.id <$> sorted' = a) →
    Tab.id <$> strip ≠ a ∧
    ∃ m, tabs_move m ∈
      trace (sortTabs (Some compareByLastAccessAsc) Examples.default_settings
               strip)) as Hsecond.
  { intros strip Hneq Hnormal (sorted' & Hsort' & Hids'). split; [done|].
    destruct (sortTabsInternal_out_of_order strip
                (Some compareByLastAccessAsc) sorted')
      as (st & Hst & Hissued); [done|by rewrite Hids'|apply Hdiff|].
    rewrite (sortTabs_normal_tabs_only (Some compareByLastAccessAsc)
               Examples.default_settings strip st eq_refl Hnormal Hst).
    destruct (issued st) as [|m ms]; [done|].
    exists m. cbn [trace]. right. by left. }
  revert Hpass Hruns. generalize (Spec.inserted_runs (diff b a)).
  intros runs Hpass Hruns.
  assert (compositions [3; 4; 5; 7] =
    [ [[3]; [4]; [5]; [7]]; [[3; 4]; [5]; [7]]; [[3]; [4; 5]; [7]];
      [[3; 4; 5]; [7]]; [[3]; [4]; [5; 7]]; [[3; 4]; [5; 7]];
      [[3]; [4; 5; 7]]; [[3; 4; 5; 7]] ]) as Hall by (by vm_compute).
  rewrite Hall in Hruns. clear Hall.
  repeat (apply elem_of_cons in Hruns as [->|Hruns];
    [vm_compute in Hpass; injection Hpass as <- <-;
     apply Hsecond;
     [by vm_compute|by vm_compute|eexists; split; by vm_compute]|]).
  by apply elem_of_nil in Hruns.
Qed.

(** * Further properties of the comparators and of the sort *)

(** X6: each descending comparator returns on [(a, b)] what its ascending
    twin returns on [(b, a)], and throws exactly when the twin throws: the
    descending order is the ascending one with the arguments exchanged. *)
Theorem descending_is_ascending_swapped `{Host} (a b : Tab.t) (v : Z) :
  (compareByUrlDesc a b = Ok v ↔ compareByUrlAsc b a = Ok v) ∧
  (compareByDomainDesc a b = Ok v ↔ compareByDomainAsc b a = Ok v) ∧
  (compareByTitleDesc a b = Ok v ↔ compareByTitleAsc b a = Ok v) ∧
  (compareByLastAccessDesc a b = Ok v ↔ compareByLastAccessAsc b a = Ok v).
Proof.
  unfold compareByUrlDesc, compareByUrlAsc, compareByDomainDesc,
         compareByDomainAsc, compareByTitleDesc, compareByTitleAsc,
         compareByLastAccessDesc, compareByLastAccessAsc.
  split_and!; [| |done..];
    destruct (new_URL (Tab.url a)) as [ua|ea];
    destruct (new_URL (Tab.url b)) as [ub|eb]; simpl; done.
Qed.

Lemma compareByLastAccess_sign_aux (a b : Tab.t) :
  compareByLastAccessAsc a b
    = Ok (Z.sgn (Tab.lastAccessed a - Tab.lastAccessed b)) ∧
  compareByLastAccessAsc b a
    = Ok (- Z.sgn (Tab.lastAccessed a - Tab.lastAccessed b)) ∧
  compareByLastAccessDesc a b
    = Ok (- Z.sgn (Tab.lastAccessed a - Tab.lastAccessed b)).
Proof.
  unfold compareByLastAccessAsc, compareByLastAccessDesc.
  generalize (Tab.lastAccessed a) (Tab.lastAccessed b). intros x y.
  unfold mret, result_ret.
  destruct (Z.ltb_spec x y), (Z.ltb_spec y x),
           (Z.gtb_spec x y), (Z.gtb_spec y x);
    try lia; split_and!; f_equal; lia.
Qed.

(** X7: the last-access comparators always return, the ascending one with
    the sign of the difference of the two times (so 0 exactly for equal
    times), and both exchanging the arguments and taking the descending
    comparator negate the result. *)
Theorem compareByLastAccess_sign (a b : Tab.t) :
  compareByLastAccessAsc a b
    = Ok (Z.sgn (Tab.lastAccessed a - Tab.lastAccessed b)) ∧
  compareByLastAccessAsc b a
    = Ok (- Z.sgn (Tab.lastAccessed a - Tab.lastAccessed b)) ∧
  compareByLastAccessDesc a b
    = Ok (- Z.sgn (Tab.lastAccessed a - Tab.lastAccessed b)).
Proof. apply compareByLastAccess_sign_aux. Qed.

Section ArraySortOrders.
Context {A : Type} (comparefn : A → A → result Z) (key : A → Z).
Hypothesis comparefn_key :
  ∀ x y, ∃ v, comparefn x y = Ok v ∧ (v ≤ 0 ↔ key x ≤ key y).

Lemma sort_insert_StronglySorted x s :
  StronglySorted (λ a b, key a ≤ key b) s →
  ∃ s', sort_insert comparefn x s = Ok s' ∧
        StronglySorted (λ a b, key a ≤ key b) s'.
Proof.
  induction s as [|y r IH]; intros Hs; simpl.
  - eexists. split; [done|]. by repeat constructor.
  - destruct (comparefn_key x y) as (v & -> & Hv). simpl.
    apply StronglySorted_inv in Hs as [Hr Hy].
    destruct (Z.leb_spec v 0) as [Hle|Hgt].
    + eexists. split; [done|]. constructor; [by constructor|].
      apply Hv in Hle. constructor; [done|].
      eapply Forall_impl; [exact Hy|]. simpl. lia.
    + destruct (IH Hr) as (r' & Hins & Hr'). rewrite Hins. simpl.
      eexists. split; [done|]. constructor; [done|].
      rewrite (sort_insert_Permutation _ _ _ _ Hins).
      constructor; [|done]. assert (¬ v ≤ 0) as Hnv by lia.
      rewrite Hv in Hnv. lia.
Qed.

Lemma sort_with_StronglySorted l :
  ∃ s, sort_with comparefn l = Ok s ∧ s ≡ₚ l ∧
       StronglySorted (λ a b, key a ≤ key b) s.
Proof.
  induction l as [|x r (s0 & Hs0 & _ & Hsorted)]; simpl.
  - exists []. split_and!; [done..|constructor].
  - rewrite Hs0. simpl.
    destruct (sort_insert_StronglySorted x s0 Hsorted) as (s & Hs & Hss).
    exists s. split_and!; [done| |done].
    apply (sort_with_Permutation comparefn (x :: r)). simpl.
    by rewrite Hs0.
Qed.
End ArraySortOrders.

(** X8: sorting any list of tabs with the ascending last-access comparator
    returns, and the result is a permutation of the list in which every tab
    was accessed no later than each tab after it; with the descending
    comparator, no earlier. *)
Theorem sort_by_last_access_orders (tabs : list Tab.t) :
  (∃ sorted,
     Array_sort tabs (Some compareByLastAccessAsc) = Ok sorted ∧
     sorted ≡ₚ tabs ∧
     StronglySorted (λ a b, Tab.lastAccessed a ≤ Tab.lastAccessed b) sorted) ∧
  (∃ sorted,
     Array_sort tabs (Some compareByLastAccessDesc) = Ok sorted ∧
     sorted ≡ₚ tabs ∧
     StronglySorted (λ a b, Tab.lastAccessed b ≤ Tab.lastAccessed a) sorted).
Proof.
  split.
  - apply (sort_with_StronglySorted _ Tab.lastAccessed).
    intros x y. exists (Z.sgn (Tab.lastAccessed x - Tab.lastAccessed y)).
    split; [apply compareByLastAccess_sign_aux|].
    rewrite Z.sgn_nonpos. lia.
  - destruct (sort_with_StronglySorted compareByLastAccessDesc
                (λ t, - Tab.lastAccessed t)) with (l := tabs)
      as (s & Hs & Hperm & Hsorted).
    { intros x y. exists (- Z.sgn (Tab.lastAccessed x - Tab.lastAccessed y)).
      split; [apply compareByLastAccess_sign_aux|].
      rewrite Z.opp_nonpos_nonneg, Z.sgn_nonneg. lia. }
    exists s. split_and!; [done..|]. clear Hs Hperm.
    induction Hsorted as [|t l _ IH Ht]; [constructor|].
    constructor; [done|].
    eapply Forall_impl; [exact Ht|]. simpl. lia.
Qed.

(** * Further properties of the domain key *)

Lemma string_app_assoc (s1 s2 s3 : string) :
  (s1 +:+ s2) +:+ s3 = s1 +:+ (s2 +:+ s3).
Proof.
  induction s1 as [|c r IH]; [done|].
  change (String c ((r +:+ s2) +:+ s3) = String c (r +:+ s2 +:+ s3)).
  by f_equal.
Qed.

Lemma join_cons sep x l :
  l ≠ [] → join sep (x :: l) = x +:+ sep +:+ join sep l.
Proof. by destruct l. Qed.

Lemma join_split (s : string) : join "." (split "." s) = s.
Proof.
  induction s as [|c r IH]; simpl; [done|].
  pose proof (split_nonempty "." r) as Hne.
  case_decide.
  - subst c. by rewrite join_cons, IH.
  - destruct (split "." r) as [|h [|h' t]]; [done|..].
    + simpl in *. by rewrite IH.
    + rewrite join_cons by done. rewrite join_cons in IH by done.
      by rewrite <-IH.
Qed.

Lemma split_labels_dot_free (s : string) : Forall dot_free (split "." s).
Proof.
  induction s as [|c r IH]; simpl; [by repeat constructor|].
  case_decide; [by constructor|].
  destruct (split "." r) as [|h t]; [by repeat constructor|].
  apply Forall_cons in IH as [Hh Ht]. by repeat constructor.
Qed.

Lemma split_join (l : list string) :
  l ≠ [] → Forall dot_free l → split "." (join "." l) = l.
Proof.
  induction l as [|x [|y r] IH]; intros Hne Hl; [done|..].
  - apply Forall_cons in Hl as [Hx _]. by apply split_dot_free.
  - apply Forall_cons in Hl as [Hx Hl]. rewrite join_cons by done.
    change (x +:+ "." +:+ join "." (y :: r))
      with (x +:+ String "." (join "." (y :: r))).
    by rewrite split_app, split_dot_free, IH.
Qed.

Lemma join_app sep l1 l2 :
  l1 ≠ [] → l2 ≠ [] →
  join sep (l1 ++ l2) = join sep l1 +:+ sep +:+ join sep l2.
Proof.
  induction l1 as [|x [|y r] IH]; intros H1 H2; [done|..].
  - by destruct l2.
  - change ((x :: y :: r) ++ l2) with (x :: ((y :: r) ++ l2)).
    rewrite !join_cons, IH by done.
    by rewrite !string_app_assoc.
Qed.

Lemma slice_last_two_spec {A} (l : list A) :
  slice (-2) l = drop (length l - 2) l.
Proof. unfold slice. cbn [Z.ltb Z.compare]. f_equal. lia. Qed.

(** X9: splitting a string at its dots and joining the pieces with dots
    gives the string back, the pieces contain no dot, and there is at least
    one piece. *)
Theorem join_split_round_trip (s : string) :
  join "." (split "." s) = s ∧
  Forall dot_free (split "." s) ∧
  split "." s ≠ [].
Proof.
  split_and!;
    [apply join_split|apply split_labels_dot_free|apply split_nonempty].
Qed.

(** X10: the key the domain comparators compute from a hostname is an end
    piece of the hostname, has at most two dot-separated labels, and is its
    own key. *)
Theorem domain_of_key (h : string) :
  (∃ front, h = front +:+ domain_of h) ∧
  (1 ≤ length (split "." (domain_of h)) ≤ 2)%nat ∧
  domain_of (domain_of h) = domain_of h.
Proof.
  pose proof (split_nonempty "." h) as Hne.
  pose proof (split_labels_dot_free h) as Hfree.
  pose proof (join_split h) as Hjoin.
  unfold domain_of. rewrite !slice_last_two_spec.
  set (l := split "." h) in *.
  set (n := (length l - 2)%nat).
  assert (drop n l ≠ []) as Hdrop.
  { intros Hnil. apply (f_equal length) in Hnil.
    rewrite length_drop in Hnil. simpl in Hnil.
    destruct l; [done|]. simpl in *. lia. }
  assert (split "." (join "." (drop n l)) = drop n l) as Hsplit.
  { apply split_join; [done|]. by apply Forall_drop. }
  assert (length (drop n l) ≤ 2)%nat as Hlen by (rewrite length_drop; lia).
  split_and!.
  - destruct (decide (take n l = [])) as [Htake|Htake].
    + exists "". simpl. rewrite <-Hjoin at 1.
      by rewrite <-(take_drop n l) at 1; rewrite Htake.
    + exists (join "." (take n l) +:+ ".").
      rewrite string_app_assoc, <-join_app by done.
      by rewrite take_drop.
  - rewrite Hsplit. destruct (drop n l); [done|]. simpl. lia.
  - by rewrite Hsplit.
  - rewrite Hsplit.
    assert (length (drop n l) - 2 = 0)%nat as -> by lia. done.
Qed.

(** * Further properties of [sortTabs] and of the table of comparators *)

(** X11: with the sort-pinned setting off, what [sortTabs] does depends on
    the normal tabs only: two tab strips with the same normal tabs give the
    same host calls and the same settlement, so a pinned tab is neither
    compared nor moved and cannot make the pass fail. *)
Theorem sortTabs_sort_pinned_off `{Differ}
    (comparator : option Comparator) (settings : Settings)
    (tabs tabs' : list Tab.t) :
  settings_sort_pinned settings = false →
  filter (λ tab, Tab.pinned tab ≠ true) tabs
    = filter (λ tab, Tab.pinned tab ≠ true) tabs' →
  sortTabs comparator settings tabs = sortTabs comparator settings tabs'.
Proof. intros Hpinned Hnormal. unfold sortTabs. by rewrite Hpinned, Hnormal. Qed.

(** X12: when the promise of [sortTabs] is rejected, no normal tab has been
    moved: the host calls are the query followed by moves of pinned tabs
    only, and by the query alone when the sort-pinned setting is off. *)
Theorem sortTabs_rejected_moves_pinned_only `{Differ}
    (comparator : option Comparator) (settings : Settings)
    (tabs : list Tab.t) (e : exn) :
  differ_edit_scripts →
  NoDup (Tab.id <$> tabs) →
  settled (sortTabs comparator settings tabs) = Throw e →
  ∃ moves,
    trace (sortTabs comparator settings tabs)
      = tabs_query :: (tabs_move <$> moves) ∧
    (settings_sort_pinned settings = false → moves = []) ∧
    ∀ m tab, m ∈ moves → tab ∈ tabs → Tab.id tab ∈ movingIds m →
             Tab.pinned tab = true.
Proof.
  intros Hdiff Hnd. unfold sortTabs.
  destruct (settings_sort_pinned settings) eqn:Hpinned.
  - destruct (sortTabsInternal (filter (λ tab, Tab.pinned tab = true) tabs)
                comparator) as [st1|e1] eqn:H1.
    + destruct (sortTabsInternal
                  (filter (λ tab, Tab.pinned tab ≠ true) tabs) comparator)
        as [st2|e2] eqn:H2; cbn [settled trace]; [by intros [=]|]. intros _.
      exists (issued st1). split_and!; [done..|].
      intros m tab Hm Htab Hid.
      destruct (sortTabsInternal_moves _ _ _ _ Hdiff
                  (NoDup_ids_filter _ _ Hnd) H1 Hm) as [Hids _].
      apply Hids, list_elem_of_fmap in Hid as (tab' & Heq & Htab').
      apply list_elem_of_filter in Htab' as [Hpin Htab'].
      by rewrite (NoDup_fmap_eq Tab.id tabs tab tab' Hnd Htab Htab' Heq).
    + cbn [settled trace]. intros _. exists [].
      split_and!; [done..|]. intros m tab Hm. by apply elem_of_nil in Hm.
  - cbn [mret result_ret].
    destruct (sortTabsInternal
                (filter (λ tab, Tab.pinned tab ≠ true) tabs) comparator)
      as [st2|e2] eqn:H2; cbn [settled trace issued]; [by intros [=]|].
    intros _. exists [].
    split_and!; [done..|]. intros m tab Hm. by apply elem_of_nil in Hm.
Qed.

(** X13: the table of comparators has an entry for exactly the ids of the
    popup's sort buttons, and these ids are pairwise distinct; so a click on
    a sort button always reaches [sortTabs] with a comparator. *)
Theorem menuDefs_ids_have_comparators `{Host} `{Differ} :
  NoDup (Popup.id <$> Popup.menuDefs) ∧
  (∀ key, is_Some (menuIdToComparator !! key)
          ↔ key ∈ Popup.id <$> Popup.menuDefs) ∧
  (∀ def settings tabs, def ∈ Popup.menuDefs →
     ∃ comparator,
       menuIdToComparator !! Popup.id def = Some comparator ∧
       sortTabsComparatorName (Popup.id def) settings tabs
         = sortTabs (Some comparator) settings tabs).
Proof.
  assert (∀ key, is_Some (menuIdToComparator !! key)
                 ↔ key ∈ Popup.id <$> Popup.menuDefs) as Hkeys.
  { intros key. rewrite <-elem_of_dom. unfold menuIdToComparator.
    rewrite dom_list_to_map_L, elem_of_list_to_set.
    cbn [fmap list_fmap fst Popup.menuDefs Popup.id].
    rewrite !elem_of_cons, !elem_of_nil. tauto. }
  split_and!; [|done|].
  - apply (bool_decide_unpack _). by vm_compute.
  - intros def settings tabs Hdef.
    destruct (proj2 (Hkeys (Popup.id def))) as [comparator Hc].
    { by apply list_elem_of_fmap_2. }
    exists comparator. split; [done|].
    unfold sortTabsComparatorName, comparator_of.
    change (default "undefined" (Some (Popup.id def))) with (Popup.id def).
    by rewrite Hc.
Qed.

(** * Properties of the settings functions and of the popup's handlers *)

Lemma lookup_storage_get defaults b key :
  storage_get defaults b !! key
  = d ← defaults !! key;
    match storage_local b !! key with Some v => Some v | None => d end.
Proof. unfold storage_get. by rewrite map_lookup_imap. Qed.

Lemma initializeSettings_flag b key :
  key = "settings-sort-auto" ∨ key = "settings-sort-pinned" →
  initializeSettings b !! key
  = Some (default (VBool false) (storage_local b !! key)) ∧
  Popup.initializeSettings b !! key
  = Some (default (VBool false) (storage_local b !! key)).
Proof.
  unfold initializeSettings, Popup.initializeSettings.
  intros [->| ->]; rewrite !lookup_storage_get;
    (replace (defaultDict !! _) with (Some (Some (VBool false)))
       by (by vm_compute));
    (replace (Popup.defaultDict !! _) with (Some (Some (VBool false)))
       by (by vm_compute));
    simpl; by destruct (storage_local b !! _).
Qed.

Lemma initializeSettings_last_comparator b :
  initializeSettings b !! "last-comparator"
  = storage_local b !! "last-comparator".
Proof.
  unfold initializeSettings. rewrite lookup_storage_get.
  replace (defaultDict !! "last-comparator") with (Some (@None js_value))
    by (by vm_compute).
  simpl. by destruct (storage_local b !! _).
Qed.

Lemma setting_ids key :
  key ∈ Popup.setting_id <$> Popup.settingsDefs ↔
  key = "settings-sort-auto" ∨ key = "settings-sort-pinned".
Proof.
  change (Popup.setting_id <$> Popup.settingsDefs)
    with ["settings-sort-auto"; "settings-sort-pinned"].
  rewrite !elem_of_cons, elem_of_nil. tauto.
Qed.

Lemma settingsMenuIdToHandler_None key :
  key ≠ "settings-sort-auto" → key ≠ "settings-sort-pinned" →
  settingsMenuIdToHandler !! key = None.
Proof.
  intros H1 H2. unfold settingsMenuIdToHandler. simpl.
  by rewrite !lookup_insert_ne, lookup_empty.
Qed.

Lemma settingChanged_auto newValue b :
  settingChanged "settings-sort-auto" newValue b
  = Ok (storage_set "settings-sort-auto" newValue
          (onSettingsSortAuto (Some newValue) b)).
Proof.
  unfold settingChanged, settingsMenuIdToHandler. cbn [list_to_map foldr].
  by rewrite lookup_insert_eq.
Qed.

Lemma settingChanged_pinned newValue b :
  settingChanged "settings-sort-pinned" newValue b
  = Ok (storage_set "settings-sort-pinned" newValue b).
Proof.
  unfold settingChanged, settingsMenuIdToHandler. cbn [list_to_map foldr].
  rewrite lookup_insert_ne by discriminate. by rewrite lookup_insert_eq.
Qed.

Lemma onSettingsSortAuto_listeners newValue b :
  tabs_onUpdated (onSettingsSortAuto newValue b) = truthy newValue ∧
  tabs_onCreated (onSettingsSortAuto newValue b) = truthy newValue ∧
  storage_local (onSettingsSortAuto newValue b) = storage_local b.
Proof. unfold onSettingsSortAuto. by destruct (truthy newValue). Qed.

(** X14: a setting change on one of the two settings ids returns, and the
    new value is what both pages read back for that setting afterwards; no
    other key of the storage is touched. *)
Theorem settingChanged_round_trip
    (settingId : string) (newValue : js_value) (b : Browser) :
  settingId ∈ Popup.setting_id <$> Popup.settingsDefs →
  ∃ b', settingChanged settingId newValue b = Ok b' ∧
        initializeSettings b' !! settingId = Some newValue ∧
        Popup.initializeSettings b' !! settingId = Some newValue ∧
        ∀ key, key ≠ settingId →
               storage_local b' !! key = storage_local b !! key.
Proof.
  intros Hid. apply setting_ids in Hid.
  assert (∃ b', settingChanged settingId newValue b = Ok b' ∧
                storage_local b'
                = <[settingId := newValue]> (storage_local b))
    as (b' & Hchanged & Hst).
  { destruct Hid as [-> | ->]; eexists.
    - split; [apply settingChanged_auto|].
      cbn [storage_set storage_local].
      by destruct (onSettingsSortAuto_listeners (Some newValue) b)
        as (_ & _ & ->).
    - split; [apply settingChanged_pinned|done]. }
  exists b'. split; [done|].
  destruct (initializeSettings_flag b' settingId Hid) as [-> ->].
  rewrite Hst, lookup_insert_eq. split_and!; [done..|].
  intros key Hkey. by rewrite lookup_insert_ne.
Qed.


Lemma initializeSettings_storage b b' :
  storage_local b' = storage_local b →
  initializeSettings b' = initializeSettings b.
Proof.
  intros Hst. unfold initializeSettings, storage_get. by rewrite Hst.
Qed.

(** X15: whether a tab event sorts is decided by the auto-sort setting at
    once: after loading, and after every change of that setting, a created
    or updated tab runs [settingsSortAutoHandler] on the settings then
    stored when the stored or new value is truthy, and causes no host call
    at all when it is not. *)
Theorem tab_events_follow_auto_setting `{Host} `{Differ}
    (b : Browser) (newValue : js_value) (tabs : list Tab.t) :
  (let loaded := onDOMContentLoaded b in
   let handled :=
     if truthy (initializeSettings b !! "settings-sort-auto")
     then settingsSortAutoHandler (Ok (settings_of (initializeSettings b))) tabs
     else mkRun [] (Ok ()) in
   tabs_onCreated_fires loaded tabs = handled ∧
   tabs_onUpdated_fires loaded tabs = handled) ∧
  (∃ changed,
     settingChanged "settings-sort-auto" newValue b = Ok changed ∧
     let handled :=
       if truthy (Some newValue)
       then settingsSortAutoHandler
              (Ok (settings_of (initializeSettings changed))) tabs
       else mkRun [] (Ok ()) in
     tabs_onCreated_fires changed tabs = handled ∧
     tabs_onUpdated_fires changed tabs = handled).
Proof.
  split.
  - cbv zeta. unfold tabs_onCreated_fires, tabs_onUpdated_fires,
      onDOMContentLoaded.
    destruct (onSettingsSortAuto_listeners
                (initializeSettings b !! "settings-sort-auto") b)
      as (-> & -> & Hst).
    rewrite (initializeSettings_storage _ _ Hst).
    split; reflexivity.
  - eexists. split; [apply settingChanged_auto|]. cbv zeta.
    unfold tabs_onCreated_fires, tabs_onUpdated_fires.
    cbn [storage_set tabs_onCreated tabs_onUpdated].
    destruct (onSettingsSortAuto_listeners (Some newValue) b)
      as (-> & -> & _). split; reflexivity.
Qed.

(** X16: a setting change returns exactly for the ids of the popup's two
    settings.  With any other id it throws a TypeError before a listener or
    the storage is touched, whether the table has nothing under that id or
    the id names a member that the table inherits, such as [toString],
    which is called and whose result has no [then]. *)
Theorem settingChanged_handles_settingsDefs
    (settingId : string) (newValue : js_value) (b : Browser) :
  (settingId ∈ Popup.setting_id <$> Popup.settingsDefs ↔
   is_Ok (settingChanged settingId newValue b)) ∧
  (settingId ∉ Popup.setting_id <$> Popup.settingsDefs ↔
   ∃ message, settingChanged settingId newValue b = Throw (TypeError message)) ∧
  settingChanged "toString" newValue b
    = Throw (TypeError
        "settingsMenuIdToHandler[settingId](...).then is not a function") ∧
  settingChanged "settings-sort-manual" newValue b
    = Throw (TypeError "settingsMenuIdToHandler[settingId] is not a function").
Proof.
  split_and!; [| |reflexivity..]; rewrite setting_ids.
  - destruct (decide (settingId = "settings-sort-auto")) as [->|Hauto].
    { rewrite settingChanged_auto. split; [by eexists|]. intros _. by left. }
    destruct (decide (settingId = "settings-sort-pinned")) as [->|Hpinned].
    { rewrite settingChanged_pinned. split; [by eexists|]. intros _. by right. }
    unfold settingChanged. rewrite settingsMenuIdToHandler_None by done.
    split; [by intros [?|?]|by intros [b' [=]]].
  - destruct (decide (settingId = "settings-sort-auto")) as [->|Hauto].
    { rewrite settingChanged_auto. split; [|by intros (m & [=])].
      intros Hn; destruct Hn; by left. }
    destruct (decide (settingId = "settings-sort-pinned")) as [->|Hpinned].
    { rewrite settingChanged_pinned. split; [|by intros (m & [=])].
      intros Hn; destruct Hn; by right. }
    unfold settingChanged. rewrite settingsMenuIdToHandler_None by done.
    split; [|by intros _ [?|?]].
    intros _. destruct (no_handler settingId) as [message]. by eexists.
Qed.

Lemma settingChanged_keeps_match settingId newValue b b' :
  listeners_match_setting b →
  settingChanged settingId newValue b = Ok b' →
  listeners_match_setting b'.
Proof.
  intros [Hu Hc].
  destruct (decide (settingId = "settings-sort-auto")) as [->|Hauto].
  { rewrite settingChanged_auto. intros [= <-].
    unfold listeners_match_setting.
    destruct (initializeSettings_flag
                (storage_set "settings-sort-auto" newValue
                   (onSettingsSortAuto (Some newValue) b))
                "settings-sort-auto") as [-> _]; [by left|].
    cbn [storage_set storage_local tabs_onUpdated tabs_onCreated].
    rewrite lookup_insert_eq. cbn [default from_option id].
    destruct (onSettingsSortAuto_listeners (Some newValue) b)
      as (-> & -> & _). split; reflexivity. }
  destruct (decide (settingId = "settings-sort-pinned")) as [->|Hpinned].
  { rewrite settingChanged_pinned. intros [= <-].
    unfold listeners_match_setting.
    destruct (initializeSettings_flag
                (storage_set "settings-sort-pinned" newValue b)
                "settings-sort-auto") as [-> _]; [by left|].
    destruct (initializeSettings_flag b "settings-sort-auto")
      as [Hb _]; [by left|]. rewrite Hb in Hu, Hc.
    cbn [storage_set storage_local tabs_onUpdated tabs_onCreated].
    rewrite lookup_insert_ne by discriminate. split; assumption. }
  unfold settingChanged. by rewrite settingsMenuIdToHandler_None.
Qed.

Lemma clickHandler_storage `{Host} `{Differ} target_id settings tabs b key :
  key ≠ "last-comparator" →
  storage_local (Popup.clickHandler target_id settings tabs b).1 !! key
  = storage_local b !! key.
Proof.
  intros Hkey. unfold Popup.clickHandler.
  destruct (settled _); [|done].
  cbn [fst storage_set storage_local]. by rewrite lookup_insert_ne.
Qed.

Lemma clickHandler_listeners `{Host} `{Differ} target_id settings tabs b :
  tabs_onUpdated (Popup.clickHandler target_id settings tabs b).1
  = tabs_onUpdated b ∧
  tabs_onCreated (Popup.clickHandler target_id settings tabs b).1
  = tabs_onCreated b.
Proof. unfold Popup.clickHandler. by destruct (settled _). Qed.

(** X17: once the background page is loaded, whatever the user then does
    (any sequence of clicks on settings checkboxes and on sort buttons, the
    failing ones included), the handler listens to both tab events exactly
    when the stored auto-sort setting is truthy. *)
Theorem listeners_always_match_setting `{Host} `{Differ}
    (b : Browser) (actions : list action) :
  listeners_match_setting (foldl perform (onDOMContentLoaded b) actions).
Proof.
  assert (listeners_match_setting (onDOMContentLoaded b)) as Hloaded.
  { unfold listeners_match_setting, onDOMContentLoaded.
    destruct (onSettingsSortAuto_listeners
                (initializeSettings b !! "settings-sort-auto") b)
      as (-> & -> & Hst).
    rewrite (initializeSettings_storage _ _ Hst). split; reflexivity. }
  revert Hloaded. generalize (onDOMContentLoaded b). clear b.
  induction actions as [|a actions IH]; intros b Hb; [done|].
  apply IH. destruct a as [target_id checked|target_id settings tabs].
  - cbn [perform]. unfold Popup.settingsClickHandler.
    destruct (settingChanged target_id checked b) as [b'|e] eqn:Hchanged;
      [|done].
    by eapply settingChanged_keeps_match.
  - cbn [perform]. destruct Hb as [Hu Hc].
    destruct (clickHandler_listeners target_id settings tabs b)
      as [Hu' Hc'].
    unfold listeners_match_setting. rewrite Hu', Hc'.
    destruct (initializeSettings_flag
                (Popup.clickHandler target_id settings tabs b).1
                "settings-sort-auto") as [-> _]; [by left|].
    rewrite clickHandler_storage by discriminate.
    destruct (initializeSettings_flag b "settings-sort-auto")
      as [Hb _]; [by left|]. rewrite Hb in Hu, Hc. split; assumption.
Qed.

(** X18: auto-sort reuses the last sort that went through: after a click on
    a button whose id has a comparator and whose pass is fulfilled, a tab
    event (with the listener registered) runs [sortTabs] with that same
    comparator, on the flags as they are stored at that time; the click
    itself does not change the stored flags. *)
Theorem auto_sort_reuses_last_click `{Host} `{Differ}
    (target_id : string) (comparator : Comparator)
    (settings : gmap string js_value) (tabs tabs' : list Tab.t)
    (b : Browser) :
  menuIdToComparator !! target_id = Some comparator →
  settled (sortTabsComparatorName target_id (settings_of settings) tabs)
    = Ok () →
  tabs_onCreated b = true →
  tabs_onCreated_fires (Popup.clickHandler target_id settings tabs b).1 tabs'
    = sortTabs (Some comparator)
        (mkSettings (Some target_id)
           (truthy (initializeSettings b !! "settings-sort-auto"))
           (truthy (initializeSettings b !! "settings-sort-pinned")))
        tabs'.
Proof.
  intros Hkey Hpass Hlisten.
  unfold tabs_onCreated_fires.
  rewrite (proj2 (clickHandler_listeners target_id settings tabs b)), Hlisten.
  assert (settings_of (initializeSettings
                         (Popup.clickHandler target_id settings tabs b).1)
          = mkSettings (Some target_id)
              (truthy (initializeSettings b !! "settings-sort-auto"))
              (truthy (initializeSettings b !! "settings-sort-pinned")))
    as ->.
  { unfold settings_of. f_equal.
    - rewrite initializeSettings_last_comparator.
      unfold Popup.clickHandler. rewrite Hpass.
      cbn [fst storage_set storage_local]. by rewrite lookup_insert_eq.
    - destruct (initializeSettings_flag
                  (Popup.clickHandler target_id settings tabs b).1
                  "settings-sort-auto") as [-> _]; [by left|].
      destruct (initializeSettings_flag b "settings-sort-auto")
        as [-> _]; [by left|].
      by rewrite clickHandler_storage by discriminate.
    - destruct (initializeSettings_flag
                  (Popup.clickHandler target_id settings tabs b).1
                  "settings-sort-pinned") as [-> _]; [by right|].
      destruct (initializeSettings_flag b "settings-sort-pinned")
        as [-> _]; [by right|].
      by rewrite clickHandler_storage by discriminate. }
  unfold settingsSortAutoHandler. cbn [last_comparator].
  change (comparator_of (Some target_id))
    with (menuIdToComparator !! target_id).
  rewrite Hkey. reflexivity.
Qed.

(** X19: a click on a URL or domain sort button while two or more normal
    tabs are open, one of which has a url that does not parse, and the
    popup's settings have sort-pinned off: the tabs are queried, no tab is
    moved, the error is traced in the popup's console, the popup stays open
    and the stored last comparator is not changed. *)
Theorem clickHandler_malformed_url `{Host} `{Differ}
    (target_id : string) (comparator : Comparator)
    (settings : gmap string js_value) (tabs : list Tab.t) (bad : Tab.t)
    (b : Browser) :
  menuIdToComparator !! target_id = Some comparator →
  comparator ∈ url_comparators →
  truthy (settings !! "settings-sort-pinned") = false →
  bad ∈ filter (λ tab, Tab.pinned tab ≠ true) tabs →
  parse_url (Tab.url bad) = None →
  (2 ≤ length (filter (λ tab, Tab.pinned tab ≠ true) tabs))%nat →
  Popup.clickHandler target_id settings tabs b
    = (b, [Popup.background tabs_query;
           Popup.popup_console "trace" "Invalid URL"]).
Proof.
  intros Hkey Hc Hpinned Hbad Hparse Hlen.
  assert (sortTabsComparatorName target_id (settings_of settings) tabs
          = mkRun [tabs_query] (Throw (TypeError "Invalid URL"))) as Hpass.
  { unfold sortTabsComparatorName, comparator_of.
    change (default "undefined" (Some target_id)) with target_id.
    rewrite Hkey. unfold sortTabs. cbn [settings_of settings_sort_pinned].
    rewrite Hpinned. cbn [mret result_ret].
    rewrite (sortTabsInternal_Throw _ (Some comparator)
               (TypeError "Invalid URL") Hlen); [done|].
    apply (sort_with_malformed _ _ bad); [| |done..].
    - intros x. by apply url_comparators_malformed.
    - intros x y e'. by apply url_comparators_Throw. }
  unfold Popup.clickHandler. by rewrite Hpass.
Qed.

(** X20: both pages read each of the two flags as the value stored under
    its id, or as [false] when nothing is stored there, whatever else the
    storage holds; the background page reads the last comparator as it is
    stored, and the popup's settings never carry one. *)
Theorem initializeSettings_reads_storage (b : Browser) (key : string) :
  (key ∈ Popup.setting_id <$> Popup.settingsDefs →
   initializeSettings b !! key
     = Some (default (VBool false) (storage_local b !! key)) ∧
   Popup.initializeSettings b !! key
     = Some (default (VBool false) (storage_local b !! key))) ∧
  initializeSettings b !! "last-comparator"
    = storage_local b !! "last-comparator" ∧
  Popup.initializeSettings b !! "last-comparator" = None ∧
  (key ∉ ["last-comparator"; "settings-sort-auto"; "settings-sort-pinned"] →
   initializeSettings b !! key = None ∧
   Popup.initializeSettings b !! key = None).
Proof.
  split_and!.
  - intros Hkey. apply initializeSettings_flag. by apply setting_ids.
  - apply initializeSettings_last_comparator.
  - unfold Popup.initializeSettings. rewrite lookup_storage_get.
    by replace (Popup.defaultDict !! "last-comparator")
      with (@None (option js_value)) by (by vm_compute).
  - intros Hkey. rewrite !elem_of_cons, elem_of_nil in Hkey.
    unfold initializeSettings, Popup.initializeSettings.
    rewrite !lookup_storage_get.
    assert (defaultDict !! key = None) as ->.
    { unfold defaultDict. simpl.
      rewrite !lookup_insert_ne, lookup_empty; naive_solver. }
    assert (Popup.defaultDict !! key = None) as ->.
    { unfold Popup.defaultDict. simpl.
      rewrite !lookup_insert_ne, lookup_empty; naive_solver. }
    done.
Qed.

(** * The further properties on concrete input *)

Section MoreConcrete.
Import Examples MoreExamples.
Local Existing Instance LcsDiff.lcs_diff.
Local Existing Instance ExampleHost.host.

Lemma six_tabs_NoDup : NoDup (Tab.id <$> six_tabs).
Proof. apply (bool_decide_unpack _). vm_compute. exact I. Defined.

Lemma six_tabs_pass :
  sortTabsInternal six_tabs (Some compareByLastAccessAsc)
  = Ok (mkState [3; 4; 5; 6; 1; 2] [mkMove [1; 2] 4]).
Proof. vm_compute. reflexivity. Defined.

Lemma six_tabs_Array_sort :
  Array_sort six_tabs (Some compareByLastAccessAsc) = Ok six_tabs_sorted.
Proof. vm_compute. reflexivity. Defined.

Lemma sortTabsInternal_permutes_ids_witness :
  [3; 4; 5; 6; 1; 2] ≡ₚ Tab.id <$> six_tabs ∧ NoDup [3; 4; 5; 6; 1; 2].
Proof.
  exact (sortTabsInternal_permutes_ids six_tabs (Some compareByLastAccessAsc)
           (mkState [3; 4; 5; 6; 1; 2] [mkMove [1; 2] 4])
           lcs_diff_edit_scripts six_tabs_NoDup six_tabs_pass).
Defined.

Lemma sortTabsInternal_one_move_per_run_witness :
  ∃ sorted,
    Array_sort six_tabs (Some compareByLastAccessAsc) = Ok sorted ∧
    [[1; 2]]
    = value <$> filter (λ c, added c = true)
                       (diff (Tab.id <$> six_tabs) (Tab.id <$> sorted)).
Proof.
  assert (six_tabs ≠ []) as Hne by discriminate.
  exact (sortTabsInternal_one_move_per_run six_tabs
           (Some compareByLastAccessAsc)
           (mkState [3; 4; 5; 6; 1; 2] [mkMove [1; 2] 4]) Hne six_tabs_pass).
Defined.

Lemma sortTabsInternal_moves_bounded_witness :
  (1 + length [3; 4; 5; 6] ≤ length six_tabs)%nat.
Proof.
  exact (sortTabsInternal_moves_bounded six_tabs six_tabs_sorted
           (Some compareByLastAccessAsc)
           (mkState [3; 4; 5; 6; 1; 2] [mkMove [1; 2] 4])
           lcs_diff_edit_scripts six_tabs_Array_sort six_tabs_pass).
Defined.

Lemma sortTabsInternal_in_order_no_move_witness :
  sortTabsInternal six_tabs_sorted (Some compareByLastAccessAsc)
  = Ok (mkState [3; 4; 5; 1; 2; 6] []).
Proof.
  apply (sortTabsInternal_in_order_no_move six_tabs_sorted
           (Some compareByLastAccessAsc)).
  - repeat split; exists (-1); (split; [reflexivity|lia]).
  - apply lcs_diff_lcs_script.
Defined.

Lemma sortTabsInternal_single_tab_witness :
  sortTabsInternal [broken_tab] (Some compareByUrlAsc) = Ok (mkState [7] []).
Proof.
  apply (sortTabsInternal_single_tab broken_tab (Some compareByUrlAsc)).
  apply lcs_diff_lcs_script.
Defined.

Lemma sortTabs_sort_pinned_off_witness :
  sortTabs (Some compareByUrlAsc) default_settings mixed_tabs
  = sortTabs (Some compareByUrlAsc) default_settings mixed_tabs_broken_pin.
Proof.
  apply (sortTabs_sort_pinned_off (Some compareByUrlAsc) default_settings
           mixed_tabs mixed_tabs_broken_pin); reflexivity.
Defined.

Lemma sortTabs_rejected_moves_pinned_only_witness :
  ∃ moves,
    trace (sortTabs (Some compareByUrlAsc) (mkSettings None false true)
             strip_with_broken_normal)
      = tabs_query :: (tabs_move <$> moves) ∧
    (settings_sort_pinned (mkSettings None false true) = false → moves = []) ∧
    ∀ m tab, m ∈ moves → tab ∈ strip_with_broken_normal →
             Tab.id tab ∈ movingIds m → Tab.pinned tab = true.
Proof.
  apply (sortTabs_rejected_moves_pinned_only (Some compareByUrlAsc)
           (mkSettings None false true) strip_with_broken_normal
           (TypeError "Invalid URL")).
  - apply lcs_diff_edit_scripts.
  - apply (bool_decide_unpack _). vm_compute. exact I.
  - vm_compute. reflexivity.
Defined.

Lemma settingChanged_round_trip_witness :
  ∃ b', settingChanged "settings-sort-pinned" (VBool true) fresh = Ok b' ∧
        initializeSettings b' !! "settings-sort-pinned" = Some (VBool true) ∧
        Popup.initializeSettings b' !! "settings-sort-pinned"
          = Some (VBool true) ∧
        ∀ key, key ≠ "settings-sort-pinned" →
               storage_local b' !! key = storage_local fresh !! key.
Proof.
  apply (settingChanged_round_trip "settings-sort-pinned" (VBool true) fresh).
  apply setting_ids. right. reflexivity.
Defined.

Lemma auto_sort_reuses_last_click_witness :
  tabs_onCreated_fires
    (Popup.clickHandler "sort-by-last-access-asc" ∅ six_tabs auto_on).1
    six_tabs_after_pass
  = sortTabs (Some compareByLastAccessAsc)
      (mkSettings (Some "sort-by-last-access-asc")
         (truthy (initializeSettings auto_on !! "settings-sort-auto"))
         (truthy (initializeSettings auto_on !! "settings-sort-pinned")))
      six_tabs_after_pass.
Proof.
  apply (auto_sort_reuses_last_click "sort-by-last-access-asc"
           compareByLastAccessAsc ∅ six_tabs six_tabs_after_pass auto_on).
  - vm_compute. reflexivity.
  - vm_compute. reflexivity.
  - reflexivity.
Defined.

Lemma clickHandler_malformed_url_witness :
  Popup.clickHandler "sort-by-url-asc" ∅ [uk_tab; broken_tab] auto_on
  = (auto_on, [Popup.background tabs_query;
               Popup.popup_console "trace" "Invalid URL"]).
Proof.
  apply (clickHandler_malformed_url "sort-by-url-asc" compareByUrlAsc ∅
           [uk_tab; broken_tab] broken_tab auto_on).
  - vm_compute. reflexivity.
  - by left.
  - reflexivity.
  - by right; left.
  - reflexivity.
  - simpl. lia.
Defined.
End MoreConcrete.
